(** * BlindNav speech service: priority queue, playback driver, throttle

    A shallow embedding of [src/services/speech/speechService.ts] together
    with the constants it reads from [src/constants] ([SPEECH_CONFIG]) and
    the [SpeechQueueItem] interface of [src/types].

    The service is a module-level singleton: an object [state], a variable
    [lastAnnouncementTime], and calls into the platform speech engine
    (expo-speech).  All of it is single-threaded JavaScript, so every
    exported function runs to completion; the only asynchronous parts are
    the engine callbacks ([onDone], [onError], [onStopped]) and the
    300 ms timer that re-runs [processQueue].  Here the whole of it is one
    value of type [World], every function of the source is a function
    [World -> World], and the callbacks and the timer are transitions of
    their own that the environment fires.

    [Date.now()] and [Math.random()] are read from the world: the k-th call
    of [Date.now()] since the start returns [clock w k].  Nothing is assumed
    about the clock unless a statement says so. *)

From Stdlib Require Import ZArith NArith QArith List String Ascii Bool Lia Sorted.
From Stdlib Require Import DecimalString DecimalNat.
Import ListNotations.
Local Open Scope Z_scope.
Local Open Scope list_scope.

(** ** Data model *)

(** [type Priority = 'critical' | 'high' | 'normal' | 'low'] *)
Inductive Priority : Type := critical | high | normal | low.

(** [type Language = 'en' | 'hi'] *)
Inductive Language : Type := en | hi.

(** The argument type of [setSpeechRate]: ['slow' | 'normal' | 'fast']. *)
Inductive RateSetting : Type := rate_slow | rate_normal | rate_fast.

Definition Priority_eqb (p q : Priority) : bool :=
  match p, q with
  | critical, critical | high, high | normal, normal | low, low => true
  | _, _ => false
  end.

(** [generateId] builds [`speech-${Date.now()}-${random suffix}`]; the two
    variable parts of that template are kept, the fixed text is not. *)
Record ItemId : Type := mkItemId { id_ms : Z; id_suffix : N }.

(** [interface SpeechQueueItem { id; text; priority; timestamp }] *)
Record SpeechQueueItem : Type := mkItem {
  id : ItemId;
  text : string;
  priority : Priority;
  timestamp : Z
}.

(** [interface SpeechServiceState]; the fields carry the prefix [st_]
    because [isSpeaking] is also the name of an exported function. *)
Record SpeechServiceState : Type := mkState {
  st_isSpeaking : bool;
  st_queue : list SpeechQueueItem;
  st_currentLanguage : Language;
  st_speechRate : Q;
  st_isPaused : bool
}.

(** What the service asks of expo-speech, in call order:
    [Speech.speak(text, {language, rate, pitch, ...})] and [Speech.stop()]. *)
Inductive EngineCall : Type :=
| EngineSpeak (spoken : string) (language : string) (rate pitch : Q)
| EngineStop.

Record World : Type := mkWorld {
  state : SpeechServiceState;       (* const state *)
  lastAnnouncementTime : Z;         (* let lastAnnouncementTime = 0 *)
  engine : list EngineCall;         (* calls made into expo-speech *)
  timers : nat;                     (* pending setTimeout(processQueue, 300) *)
  clock : nat -> Z;                 (* successive results of Date.now() *)
  ticks : nat;                      (* how many of them were consumed *)
  random : nat -> N;                (* successive Math.random() suffixes *)
  draws : nat
}.

(** ** Constants ([SPEECH_CONFIG]) *)

Definition RATE (r : RateSetting) : Q :=
  match r with
  | rate_slow => 8 # 10
  | rate_normal => 1
  | rate_fast => 13 # 10
  end.

Definition PITCH : Q := 1.

Definition LANGUAGES (l : Language) : string :=
  match l with
  | en => "en-IN"%string
  | hi => "hi-IN"%string
  end.

Definition MIN_ANNOUNCEMENT_GAP : Z := 2000.

Definition PRIORITY_TIMEOUT (p : Priority) : Z :=
  match p with
  | critical => 0      (* Never drop *)
  | high => 5000
  | normal => 10000
  | low => 15000
  end.

(** ** World plumbing *)

Definition initial_state : SpeechServiceState :=
  mkState false [] en (RATE rate_normal) false.

(** The module as it is right after loading, for a given environment. *)
Definition initial_world (c : nat -> Z) (r : nat -> N) : World :=
  mkWorld initial_state 0 [] 0 c 0 r 0.

Definition with_state (s : SpeechServiceState) (w : World) : World :=
  mkWorld s (lastAnnouncementTime w) (engine w) (timers w)
          (clock w) (ticks w) (random w) (draws w).

Definition set_isSpeaking (b : bool) (w : World) : World :=
  let s := state w in
  with_state (mkState b (st_queue s) (st_currentLanguage s)
                      (st_speechRate s) (st_isPaused s)) w.

Definition set_queue (q : list SpeechQueueItem) (w : World) : World :=
  let s := state w in
  with_state (mkState (st_isSpeaking s) q (st_currentLanguage s)
                      (st_speechRate s) (st_isPaused s)) w.

Definition set_isPaused (b : bool) (w : World) : World :=
  let s := state w in
  with_state (mkState (st_isSpeaking s) (st_queue s) (st_currentLanguage s)
                      (st_speechRate s) b) w.

Definition set_currentLanguage (l : Language) (w : World) : World :=
  let s := state w in
  with_state (mkState (st_isSpeaking s) (st_queue s) l
                      (st_speechRate s) (st_isPaused s)) w.

Definition set_speechRate (r : Q) (w : World) : World :=
  let s := state w in
  with_state (mkState (st_isSpeaking s) (st_queue s) (st_currentLanguage s)
                      r (st_isPaused s)) w.

Definition set_lastAnnouncementTime (t : Z) (w : World) : World :=
  mkWorld (state w) t (engine w) (timers w)
          (clock w) (ticks w) (random w) (draws w).

Definition call_engine (c : EngineCall) (w : World) : World :=
  mkWorld (state w) (lastAnnouncementTime w) (engine w ++ [c]) (timers w)
          (clock w) (ticks w) (random w) (draws w).

Definition set_timers (n : nat) (w : World) : World :=
  mkWorld (state w) (lastAnnouncementTime w) (engine w) n
          (clock w) (ticks w) (random w) (draws w).

(** [Date.now()] *)
Definition Date_now (w : World) : Z * World :=
  (clock w (ticks w),
   mkWorld (state w) (lastAnnouncementTime w) (engine w) (timers w)
           (clock w) (S (ticks w)) (random w) (draws w)).

(** [Math.random().toString(36).substr(2, 9)] *)
Definition Math_random (w : World) : N * World :=
  (random w (draws w),
   mkWorld (state w) (lastAnnouncementTime w) (engine w) (timers w)
           (clock w) (ticks w) (random w) (S (draws w))).

(** [Speech.stop()] *)
Definition Speech_stop (w : World) : World := call_engine EngineStop w.

(** ** The service *)

Definition generateId (w : World) : ItemId * World :=
  let '(ms, w1) := Date_now w in
  let '(suffix, w2) := Math_random w1 in
  (mkItemId ms suffix, w2).

Definition getPriorityValue (p : Priority) : Z :=
  match p with
  | critical => 4
  | high => 3
  | normal => 2
  | low => 1
  end.

(** The comparator handed to [Array.prototype.sort] in [addToQueue]. *)
Definition compareItems (a b : SpeechQueueItem) : Z :=
  let priorityDiff := getPriorityValue (priority b) - getPriorityValue (priority a) in
  if negb (priorityDiff =? 0) then priorityDiff
  else timestamp a - timestamp b.

(** [Array.prototype.sort] is a stable sort (ECMAScript 2019).  With a
    comparator that is a consistent total preorder, as [compareItems] is,
    the result of a stable sort is determined; it is computed here by a
    stable insertion sort: [x], which stood before all of [l], goes
    behind exactly the items that compare strictly before it. *)
Fixpoint sort_insert (x : SpeechQueueItem) (l : list SpeechQueueItem)
  : list SpeechQueueItem :=
  match l with
  | [] => [x]
  | y :: l' => if compareItems x y >? 0 then y :: sort_insert x l'
               else x :: y :: l'
  end.

Definition sort (l : list SpeechQueueItem) : list SpeechQueueItem :=
  fold_right sort_insert [] l.

(** The predicate of the expiry sweep in [addToQueue]. *)
Definition withinTimeout (now : Z) (item : SpeechQueueItem) : bool :=
  now - timestamp item <? PRIORITY_TIMEOUT (priority item).

Definition addToQueue (txt : string) (p : Priority) (w : World) : World :=
  let '(i, w1) := generateId w in
  let '(ts, w2) := Date_now w1 in
  let item := mkItem i txt p ts in
  (* state.queue.push(item) *)
  let pushed := st_queue (state w2) ++ [item] in
  let sorted := sort pushed in
  let '(now, w3) := Date_now w2 in
  set_queue (filter (withinTimeout now) sorted) w3.

(** The body of the promise in [speakItem], up to the call into the engine;
    what the callbacks do is in [onDone], [onError] and [onStopped]. *)
Definition speakItem (item : SpeechQueueItem) (w : World) : World :=
  let w1 := set_isSpeaking true w in
  let languageCode := LANGUAGES (st_currentLanguage (state w1)) in
  call_engine (EngineSpeak (text item) languageCode
                           (st_speechRate (state w1)) PITCH) w1.

(** The pop-time expiry test of [processQueue]. *)
Definition expiredAtPop (now : Z) (item : SpeechQueueItem) : bool :=
  (now - timestamp item >? PRIORITY_TIMEOUT (priority item))
  && negb (Priority_eqb (priority item) critical).

(** [processQueue].  The function calls itself after skipping an expired
    item; each call shifts one item off the queue, so the recursion is on
    the queue [q], which is the queue of [w] at every call.  The nested
    call is not awaited, but it runs synchronously up to [speakItem]'s
    engine call, which is all that touches the state. *)
Fixpoint processQueue_on (q : list SpeechQueueItem) (w : World) : World :=
  if st_isPaused (state w) || st_isSpeaking (state w)
     || (Z.of_nat (List.length q) =? 0)
  then w
  else
    match q with
    | [] => w                                        (* if (!item) return *)
    | item :: rest =>
        let w1 := set_queue rest w in                (* state.queue.shift() *)
        let '(now, w2) := Date_now w1 in
        if expiredAtPop now item
        then processQueue_on rest w2                 (* skip, process next *)
        else speakItem item w2
    end.

Definition processQueue (w : World) : World :=
  processQueue_on (st_queue (state w)) w.

(** The engine's callbacks for the utterance in flight. *)
Definition onDone (w : World) : World :=
  let w1 := set_isSpeaking false w in
  let '(now, w2) := Date_now w1 in
  let w3 := set_lastAnnouncementTime now w2 in
  set_timers (S (timers w3)) w3.

Definition onError (w : World) : World :=
  let w1 := set_isSpeaking false w in
  set_timers (S (timers w1)) w1.

Definition onStopped (w : World) : World :=
  set_isSpeaking false w.

(** A pending [setTimeout(() => processQueue(), 300)] fires. *)
Definition timerFires (w : World) : World :=
  match timers w with
  | O => w
  | S n => processQueue (set_timers n w)
  end.

Definition isCritical (item : SpeechQueueItem) : bool :=
  Priority_eqb (priority item) critical.

Definition speakImmediate (txt : string) (w : World) : World :=
  let w1 := Speech_stop w in
  let w2 := set_isSpeaking false w1 in
  let w3 := set_queue (filter isCritical (st_queue (state w2))) w2 in
  let '(i, w4) := generateId w3 in
  let '(ts, w5) := Date_now w4 in
  let item := mkItem i txt critical ts in
  (* state.queue.unshift(item) *)
  let w6 := set_queue (item :: st_queue (state w5)) w5 in
  processQueue w6.

Definition speakHigh (txt : string) (w : World) : World :=
  processQueue (addToQueue txt high w).

Definition speakNormal (txt : string) (w : World) : World :=
  let '(now, w1) := Date_now w in
  if now - lastAnnouncementTime w1 <? MIN_ANNOUNCEMENT_GAP then w1
  else processQueue (addToQueue txt normal w1).

Definition speakLow (txt : string) (w : World) : World :=
  processQueue (addToQueue txt low w).

(** [speak(text, priority = 'normal')]; [None] is the omitted argument. *)
Definition speak (txt : string) (p : option Priority) (w : World) : World :=
  match match p with Some p' => p' | None => normal end with
  | critical => speakImmediate txt w
  | high => speakHigh txt w
  | low => speakLow txt w
  | normal => speakNormal txt w
  end.

Definition pause (w : World) : World :=
  let w1 := set_isPaused true w in
  let w2 := Speech_stop w1 in
  set_isSpeaking false w2.

Definition resume (w : World) : World :=
  processQueue (set_isPaused false w).

Definition stop (w : World) : World :=
  let w1 := Speech_stop w in
  let w2 := set_queue [] w1 in
  let w3 := set_isSpeaking false w2 in
  set_isPaused false w3.

Definition setLanguage (l : Language) (w : World) : World :=
  set_currentLanguage l w.

Definition setSpeechRate (r : RateSetting) (w : World) : World :=
  set_speechRate (RATE r) w.

Definition isSpeaking (w : World) : bool := st_isSpeaking (state w).

Definition getQueueLength (w : World) : Z :=
  Z.of_nat (List.length (st_queue (state w))).

(** ** Observations used in the statements *)

(** The texts handed to [Speech.speak], in call order. *)
Fixpoint spokenTexts (calls : list EngineCall) : list string :=
  match calls with
  | [] => []
  | EngineSpeak s _ _ _ :: rest => s :: spokenTexts rest
  | EngineStop :: rest => spokenTexts rest
  end.

(** The texts handed to [Speech.speak] on the way from [w] to [w']. *)
Definition spokenSince (w w' : World) : list string :=
  spokenTexts (skipn (List.length (engine w)) (engine w')).

(** The call that [speakItem] makes for the text [txt] in the world [w]. *)
Definition speakCall (txt : string) (w : World) : EngineCall :=
  EngineSpeak txt (LANGUAGES (st_currentLanguage (state w)))
              (st_speechRate (state w)) PITCH.

(** The item that a submission builds in [w]: [generateId] reads the clock
    and the random source once each, [timestamp] reads the clock again. *)
Definition newItem (txt : string) (p : Priority) (w : World) : SpeechQueueItem :=
  mkItem (mkItemId (clock w (ticks w)) (random w (draws w)))
         txt p (clock w (S (ticks w))).

(** ** Environments and worlds used in examples *)

(** A clock that stands still at [t], and a constant random source. *)
Definition frozenClock (t : Z) : nat -> Z := fun _ => t.
Definition constRandom : nat -> N := fun _ => 7%N.

(** The freshly loaded service some time after the epoch. *)
Definition freshWorld : World := initial_world (frozenClock 10000) constRandom.

(** The service paused with one critical alert waiting. *)
Definition pausedWithCritical : World :=
  speakImmediate "Stairs ahead"%string (pause freshWorld).

(** A clock that reads [t0] the first [n] times and [t1] from then on. *)
Definition stepClock (n : nat) (t0 t1 : Z) : nat -> Z :=
  fun k => if (k <? n)%nat then t0 else t1.

(** The service busy speaking a high-priority message. *)
Definition busyWorld : World := speakHigh "Camera on"%string freshWorld.

(** The service paused at time 0 with one high-priority item, submitted
    at time 0, waiting; the clock reads 5000 from then on. *)
Definition pausedWithHigh : World :=
  speakHigh "Door ahead"%string
            (pause (initial_world (stepClock 3 0 5000) constRandom)).

(** ** Readings of the specification that the code is compared with *)

(** First-in-first-served among critical alerts: if a critical item is
    already queued when [speakImmediate txt] is called, the next utterance
    handed to the engine is that earlier item.  (When the service is paused
    the driver runs again at [resume].) *)
Definition criticalsServedFifo (w : World) (txt : string) : Prop :=
  forall c rest,
    filter isCritical (st_queue (state w)) = c :: rest ->
    let w1 := speakImmediate txt w in
    let w2 := if st_isPaused (state w) then resume w1 else w1 in
    head (spokenSince w w2) = Some (text c).

(** Throttling by submission time: the second of two [speakNormal] calls
    whose clock readings are less than [MIN_ANNOUNCEMENT_GAP] apart leaves
    the queue length as it found it. *)
Definition secondNormalDropped (w : World) (a b : string) : Prop :=
  let w1 := speakNormal a w in
  0 <= clock w1 (ticks w1) - clock w (ticks w) < MIN_ANNOUNCEMENT_GAP ->
  getQueueLength (speakNormal b w1) = getQueueLength w1.

(** A normal utterance survives a critical one: after [speak a 'normal']
    and then [speak b 'critical'], [b] goes to the engine with no [a]
    before it, and the item built for [a] is still queued unless its age
    has reached the normal timeout. *)
Definition normalSurvivesCritical (w : World) (a b : string) : Prop :=
  let itemA := newItem a normal (snd (Date_now w)) in
  let w1 := speak a (Some normal) w in
  let w2 := speak b (Some critical) w1 in
  (exists pre post, spokenSince w w2 = pre ++ b :: post /\ ~ In a pre)
  /\ (In itemA (st_queue (state w2))
      \/ PRIORITY_TIMEOUT normal <= clock w2 (ticks w2) - timestamp itemA).

(** Empty text is ignored: the operation [op], called with the empty
    string, leaves the queue as it was and hands nothing to the engine. *)
Definition emptyTextIgnored (op : string -> World -> World) (w : World) : Prop :=
  let w' := op EmptyString w in
  st_queue (state w') = st_queue (state w)
  /\ getQueueLength w' = getQueueLength w
  /\ spokenSince w w' = [].

(** ** Queue order and runs of the service *)

(** [a] may stand before [b] in the queue: [a] ranks higher, or they rank
    the same and [a] is not younger. *)
Definition queueOrder (a b : SpeechQueueItem) : Prop :=
  getPriorityValue (priority b) < getPriorityValue (priority a)
  \/ (getPriorityValue (priority a) = getPriorityValue (priority b)
      /\ timestamp a <= timestamp b).

Definition hasPriority (p : Priority) (item : SpeechQueueItem) : bool :=
  Priority_eqb (priority item) p.

(** [a] and [b] compare equal under [compareItems]. *)
Definition sameKey (a b : SpeechQueueItem) : bool :=
  compareItems a b =? 0.

(** What can happen to the service apart from a critical interruption:
    the three enqueueing submissions, the playback controls, the settings,
    the engine's callbacks and the timer. *)
Inductive Event : Type :=
| CallSpeakHigh (txt : string)
| CallSpeakNormal (txt : string)
| CallSpeakLow (txt : string)
| CallPause
| CallResume
| CallStop
| CallSetLanguage (l : Language)
| CallSetSpeechRate (r : RateSetting)
| EngineDone
| EngineError
| EngineStopped
| TimerFires.

Definition step (w : World) (e : Event) : World :=
  match e with
  | CallSpeakHigh txt => speakHigh txt w
  | CallSpeakNormal txt => speakNormal txt w
  | CallSpeakLow txt => speakLow txt w
  | CallPause => pause w
  | CallResume => resume w
  | CallStop => stop w
  | CallSetLanguage l => setLanguage l w
  | CallSetSpeechRate r => setSpeechRate r w
  | EngineDone => onDone w
  | EngineError => onError w
  | EngineStopped => onStopped w
  | TimerFires => timerFires w
  end.

Definition run (evs : list Event) (w : World) : World :=
  fold_left step evs w.

(** The clock never goes back. *)
Definition monotoneClock (w : World) : Prop :=
  forall i j : nat, (i <= j)%nat -> clock w i <= clock w j.

(** No queued item carries a timestamp later than a reading still to come. *)
Definition wellStamped (w : World) : Prop :=
  forall item, In item (st_queue (state w)) ->
  forall k : nat, (ticks w <= k)%nat -> timestamp item <= clock w k.

(** ** Acceptance of a submission *)

(** The submission that built [item] in [w] and ended in [w'] was taken
    up: the item is queued, or its text went to the engine on the way. *)
Definition accepted (item : SpeechQueueItem) (w w' : World) : Prop :=
  In item (st_queue (state w')) \/ In (text item) (spokenSince w w').

(** No clock reading taken between [w] and [w'] lies a full timeout of the
    item's priority, or more, after the item's timestamp: the call that
    submitted the item did not itself outlast the item. *)
Definition promptCall (item : SpeechQueueItem) (w w' : World) : Prop :=
  forall k : nat, (ticks w <= k < ticks w')%nat ->
  clock w k - timestamp item < PRIORITY_TIMEOUT (priority item).

(** ** Forgetting the texts *)

(** An item, an engine call and a world with every text replaced by the
    empty string: what is left is everything the service's control flow
    can depend on. *)
Definition untext (item : SpeechQueueItem) : SpeechQueueItem :=
  mkItem (id item) EmptyString (priority item) (timestamp item).

Definition muteCall (c : EngineCall) : EngineCall :=
  match c with
  | EngineSpeak _ l r p => EngineSpeak EmptyString l r p
  | EngineStop => EngineStop
  end.

Definition eraseTexts (w : World) : World :=
  mkWorld (mkState (st_isSpeaking (state w))
                   (map untext (st_queue (state w)))
                   (st_currentLanguage (state w))
                   (st_speechRate (state w))
                   (st_isPaused (state w)))
          (lastAnnouncementTime w) (map muteCall (engine w)) (timers w)
          (clock w) (ticks w) (random w) (draws w).

(** ** More vocabulary for the driver *)

(** Neither paused nor speaking: the state in which [processQueue] acts. *)
Definition idle (w : World) : Prop :=
  st_isPaused (state w) = false /\ st_isSpeaking (state w) = false.

(** The service paused at time 0 with a high and a low item waiting, both
    submitted at time 0, and unpaused again without running the driver;
    the clock reads 5001 from then on. *)
Definition idleWithHighAndLow : World :=
  set_isPaused false
    (speakLow "Bench"%string
       (speakHigh "Door ahead"%string
          (pause (initial_world (stepClock 6 0 5001) constRandom)))).

(** The events that submit a text. *)
Definition isSubmission (e : Event) : bool :=
  match e with
  | CallSpeakHigh _ | CallSpeakNormal _ | CallSpeakLow _ => true
  | _ => false
  end.

(* ------------------------------------------------------------------ *)
(** * The rest of the application

    The modules below embed what the application has around the speech
    service: the string tests it uses, the scene types ([src/types]), the
    Zustand store ([src/store/useAppStore.ts]), the request limiter and the
    scene conversion of the Gemini service ([src/services/ai/gemini.ts]),
    the haptic patterns ([src/services/haptics/hapticsService.ts]) and the
    two camera-screen handlers that feed the speech service
    ([announceScene] of [src/screens/CameraScreen.tsx], [onText] of
    [CameraScreenLive]). *)

(** ** Strings

    JavaScript strings are modelled by [string], a sequence of bytes (the
    UTF-8 encoding of the text).  [toLowerCase] maps the letters [A]-[Z]
    to [a]-[z] and leaves every other byte alone, which is what
    [String.prototype.toLowerCase] does to ASCII text; [includes] is the
    substring test. *)
Module JsString.

Definition lowerByte (c : ascii) : ascii :=
  let n := nat_of_ascii c in
  if ((65 <=? n) && (n <=? 90))%nat then ascii_of_nat (n + 32) else c.

Fixpoint toLowerCase (s : string) : string :=
  match s with
  | EmptyString => EmptyString
  | String c s' => String (lowerByte c) (toLowerCase s')
  end.

Fixpoint includes (s sub : string) : bool :=
  String.prefix sub s
  || match s with
     | EmptyString => false
     | String _ s' => includes s' sub
     end.

(** The decimal numeral that a template literal prints for an index. *)
Definition ofIndex (n : nat) : string :=
  NilEmpty.string_of_uint (Nat.to_uint n).

End JsString.

(** ** Scene types ([src/types]) *)
Module Scene.

Inductive Distance : Type := very_close | close | medium | far.

(** ['left' | 'center' | 'right'] *)
Inductive Position : Type := pos_left | pos_center | pos_right.

Definition positionText (p : Position) : string :=
  match p with
  | pos_left => "left"%string
  | pos_center => "center"%string
  | pos_right => "right"%string
  end.

Record BoundingBox : Type := mkBoundingBox { x : Q; y : Q; width : Q; height : Q }.

Record Detection : Type := mkDetection {
  id : string;
  type : string;
  label : string;
  confidence : Q;
  distance : option Distance;
  position : option Position;
  boundingBox : option BoundingBox
}.

Record SceneDescription : Type := mkScene {
  summary : string;
  objects : list Detection;
  text : option (list string);
  warnings : option (list string);
  timestamp : Z
}.

(** One entry of [GeminiResponse.objects]. *)
Record GeminiObject : Type := mkGeminiObject {
  name : string;
  g_position : string;
  g_distance : string
}.

Record GeminiResponse : Type := mkGeminiResponse {
  scene : string;
  g_objects : list GeminiObject;
  text_visible : list string;
  g_warnings : list string;
  navigation_hint : string
}.

End Scene.

(** ** The store ([src/store/useAppStore.ts]) *)
Module AppStore.

Inductive Screen : Type := home | camera | gallery | settings.

(** ['critical' | 'balanced' | 'detailed'] *)
Inductive Verbosity : Type := verbosity_critical | balanced | detailed.

Record Photo : Type := mkPhoto {
  id : string;
  uri : string;
  description : string;
  timestamp : Z;
  location : option (Q * Q)
}.

Record AppState : Type := mkAppState {
  currentScreen : Screen;
  isCameraActive : bool;
  isProcessing : bool;
  isSpeaking : bool;
  isPaused : bool;
  verbosity : Verbosity;
  language : Language;
  speechRate : RateSetting;
  lastScene : option Scene.SceneDescription;
  photos : list Photo;
  lastError : option string
}.

(** The state that [create] is given. *)
Definition initial : AppState :=
  mkAppState home false false false false balanced en rate_normal None [] None.

Definition setScreen (v : Screen) (s : AppState) : AppState :=
  mkAppState v (isCameraActive s) (isProcessing s) (isSpeaking s) (isPaused s)
             (verbosity s) (language s) (speechRate s) (lastScene s)
             (photos s) (lastError s).

Definition setCameraActive (v : bool) (s : AppState) : AppState :=
  mkAppState (currentScreen s) v (isProcessing s) (isSpeaking s) (isPaused s)
             (verbosity s) (language s) (speechRate s) (lastScene s)
             (photos s) (lastError s).

Definition setProcessing (v : bool) (s : AppState) : AppState :=
  mkAppState (currentScreen s) (isCameraActive s) v (isSpeaking s) (isPaused s)
             (verbosity s) (language s) (speechRate s) (lastScene s)
             (photos s) (lastError s).

Definition setSpeaking (v : bool) (s : AppState) : AppState :=
  mkAppState (currentScreen s) (isCameraActive s) (isProcessing s) v (isPaused s)
             (verbosity s) (language s) (speechRate s) (lastScene s)
             (photos s) (lastError s).

Definition setPaused (v : bool) (s : AppState) : AppState :=
  mkAppState (currentScreen s) (isCameraActive s) (isProcessing s) (isSpeaking s) v
             (verbosity s) (language s) (speechRate s) (lastScene s)
             (photos s) (lastError s).

Definition setVerbosity (v : Verbosity) (s : AppState) : AppState :=
  mkAppState (currentScreen s) (isCameraActive s) (isProcessing s) (isSpeaking s)
             (isPaused s) v (language s) (speechRate s) (lastScene s)
             (photos s) (lastError s).

Definition setLanguage (v : Language) (s : AppState) : AppState :=
  mkAppState (currentScreen s) (isCameraActive s) (isProcessing s) (isSpeaking s)
             (isPaused s) (verbosity s) v (speechRate s) (lastScene s)
             (photos s) (lastError s).

Definition setSpeechRate (v : RateSetting) (s : AppState) : AppState :=
  mkAppState (currentScreen s) (isCameraActive s) (isProcessing s) (isSpeaking s)
             (isPaused s) (verbosity s) (language s) v (lastScene s)
             (photos s) (lastError s).

Definition setLastScene (v : option Scene.SceneDescription) (s : AppState) : AppState :=
  mkAppState (currentScreen s) (isCameraActive s) (isProcessing s) (isSpeaking s)
             (isPaused s) (verbosity s) (language s) (speechRate s) v
             (photos s) (lastError s).

Definition setPhotos (v : list Photo) (s : AppState) : AppState :=
  mkAppState (currentScreen s) (isCameraActive s) (isProcessing s) (isSpeaking s)
             (isPaused s) (verbosity s) (language s) (speechRate s) (lastScene s)
             v (lastError s).

(** [photos: [photo, ...state.photos].slice(0, 100)] *)
Definition addPhoto (photo : Photo) (s : AppState) : AppState :=
  setPhotos (firstn 100 (photo :: photos s)) s.

(** [photos: state.photos.filter(p => p.id !== id)] *)
Definition removePhoto (i : string) (s : AppState) : AppState :=
  setPhotos (filter (fun p => negb (String.eqb (id p) i)) (photos s)) s.

Definition clearPhotos (s : AppState) : AppState := setPhotos [] s.

Definition setError (v : option string) (s : AppState) : AppState :=
  mkAppState (currentScreen s) (isCameraActive s) (isProcessing s) (isSpeaking s)
             (isPaused s) (verbosity s) (language s) (speechRate s) (lastScene s)
             (photos s) v.

Definition clearError (s : AppState) : AppState := setError None s.

(** The actions of the store, and a run of them. *)
Inductive Action : Type :=
| SetScreen (v : Screen)
| SetCameraActive (v : bool)
| SetProcessing (v : bool)
| SetSpeaking (v : bool)
| SetPaused (v : bool)
| SetVerbosity (v : Verbosity)
| SetLanguage (v : Language)
| SetSpeechRate (v : RateSetting)
| SetLastScene (v : option Scene.SceneDescription)
| AddPhoto (photo : Photo)
| RemovePhoto (i : string)
| ClearPhotos
| SetError (v : option string)
| ClearError.

Definition dispatch (s : AppState) (a : Action) : AppState :=
  match a with
  | SetScreen v => setScreen v s
  | SetCameraActive v => setCameraActive v s
  | SetProcessing v => setProcessing v s
  | SetSpeaking v => setSpeaking v s
  | SetPaused v => setPaused v s
  | SetVerbosity v => setVerbosity v s
  | SetLanguage v => setLanguage v s
  | SetSpeechRate v => setSpeechRate v s
  | SetLastScene v => setLastScene v s
  | AddPhoto photo => addPhoto photo s
  | RemovePhoto i => removePhoto i s
  | ClearPhotos => clearPhotos s
  | SetError v => setError v s
  | ClearError => clearError s
  end.

Definition dispatchAll (actions : list Action) (s : AppState) : AppState :=
  fold_left dispatch actions s.

End AppStore.

(** ** The Gemini service ([src/services/ai/gemini.ts]) *)
Module Gemini.

(** [AI_CONFIG.GEMINI_RPM] *)
Definition GEMINI_RPM : Z := 15.

Definition RATE_LIMIT_WINDOW : Z := 60000.

Definition MAX_REQUESTS_PER_MINUTE : Z := GEMINI_RPM - 2.

(** The two module variables of the limiter, and the clock the module
    reads with [Date.now()] (the k-th reading is [clock k]). *)
Record Limiter : Type := mkLimiter {
  lastRequestTime : Z;
  requestCount : Z;
  clock : nat -> Z;
  ticks : nat
}.

Definition initial (c : nat -> Z) : Limiter := mkLimiter 0 0 c 0.

Definition Date_now (s : Limiter) : Z * Limiter :=
  (clock s (ticks s),
   mkLimiter (lastRequestTime s) (requestCount s) (clock s) (S (ticks s))).

Definition set_requestCount (n : Z) (s : Limiter) : Limiter :=
  mkLimiter (lastRequestTime s) n (clock s) (ticks s).

Definition set_lastRequestTime (t : Z) (s : Limiter) : Limiter :=
  mkLimiter t (requestCount s) (clock s) (ticks s).

Definition canMakeRequest (s : Limiter) : bool * Limiter :=
  let '(now, s1) := Date_now s in
  let s2 := if now - lastRequestTime s1 >? RATE_LIMIT_WINDOW
            then set_requestCount 0 s1
            else s1 in
  (requestCount s2 <? MAX_REQUESTS_PER_MINUTE, s2).

(** [lastRequestTime = Date.now(); requestCount++] *)
Definition countRequest (s : Limiter) : Limiter :=
  let '(now, s1) := Date_now s in
  let s2 := set_lastRequestTime now s1 in
  set_requestCount (requestCount s2 + 1) s2.

Definition mapDistance (distance : string) : option Scene.Distance :=
  let d := JsString.toLowerCase distance in
  if JsString.includes d "very close" || JsString.includes d "immediate"
  then Some Scene.very_close
  else if JsString.includes d "close" || JsString.includes d "near"
  then Some Scene.close
  else if JsString.includes d "far" || JsString.includes d "distant"
  then Some Scene.far
  else Some Scene.medium.

Definition mapPosition (position : string) : option Scene.Position :=
  let p := JsString.toLowerCase position in
  if JsString.includes p "left" then Some Scene.pos_left
  else if JsString.includes p "right" then Some Scene.pos_right
  else Some Scene.pos_center.

(** The callback of [geminiResponse.objects.map((obj, index) => ...)]. *)
Definition toDetection (index : nat) (obj : Scene.GeminiObject) : Scene.Detection :=
  Scene.mkDetection
    (String.append "obj-" (JsString.ofIndex index))
    (JsString.toLowerCase (Scene.name obj))
    (Scene.name obj)
    (9 # 10)
    (mapDistance (Scene.g_distance obj))
    (mapPosition (Scene.g_position obj))
    None.

(** [Array.prototype.map] with the index, starting at [index]. *)
Fixpoint mapWithIndex (index : nat) (objs : list Scene.GeminiObject)
  : list Scene.Detection :=
  match objs with
  | [] => []
  | obj :: rest => toDetection index obj :: mapWithIndex (S index) rest
  end.

Definition toSceneDescription (geminiResponse : Scene.GeminiResponse)
           (s : Limiter) : Scene.SceneDescription * Limiter :=
  let detections := mapWithIndex 0 (Scene.g_objects geminiResponse) in
  let '(now, s1) := Date_now s in
  (Scene.mkScene (Scene.scene geminiResponse) detections
                 (Some (Scene.text_visible geminiResponse))
                 (Some (Scene.g_warnings geminiResponse))
                 now,
   s1).

(** What the awaited call to the model can come to: [generateContent]
    rejects; it resolves but [response.text()] throws; or the text of the
    response is there. *)
Inductive Outcome : Type :=
| Rejected
| NoText
| Text (responseText : string).

Section WithPlatform.

(** [parseGeminiResponse] is a regular-expression match followed by
    [JSON.parse], and [String.prototype.trim] is the platform's; both are
    taken as given.  [None] stands for every response from which
    [analyzeImage] gets no scene: no JSON in it, malformed JSON, or JSON of
    another shape (the exception that then escapes [toSceneDescription] is
    caught by [analyzeImage]). *)
Variable parseGeminiResponse : string -> option Scene.GeminiResponse.
Variable trim : string -> string.

(** [analyzeImage], as it runs when nothing else touches the limiter
    between the rate check and the completion of the awaited request.  The
    image only travels to the model, whose answer is [outcome]. *)
Definition analyzeImage (outcome : Outcome) (s : Limiter)
  : option Scene.SceneDescription * Limiter :=
  let '(ok, s1) := canMakeRequest s in
  if negb ok then (None, s1)
  else
    match outcome with
    | Rejected => (None, s1)
    | NoText => (None, countRequest s1)
    | Text responseText =>
        let s2 := countRequest s1 in
        match parseGeminiResponse responseText with
        | None => (None, s2)
        | Some parsed =>
            let '(sceneDescription, s3) := toSceneDescription parsed s2 in
            (Some sceneDescription, s3)
        end
    end.

Definition describePhoto (outcome : Outcome) (s : Limiter) : string * Limiter :=
  let '(ok, s1) := canMakeRequest s in
  if negb ok
  then ("Photo saved. Description not available due to rate limiting."%string, s1)
  else
    match outcome with
    | Rejected => ("Photo saved. Could not generate description."%string, s1)
    | NoText => ("Photo saved. Could not generate description."%string,
                 countRequest s1)
    | Text responseText => (trim responseText, countRequest s1)
    end.

(** [getRateLimitStatus]: the pair is [(remaining, resetsIn)]. *)
Definition getRateLimitStatus (s : Limiter) : (Z * Z) * Limiter :=
  let '(now, s1) := Date_now s in
  let timeSinceLastRequest := now - lastRequestTime s1 in
  let resetsIn := Z.max 0 (RATE_LIMIT_WINDOW - timeSinceLastRequest) in
  let remaining := Z.max 0 (MAX_REQUESTS_PER_MINUTE - requestCount s1) in
  ((remaining, resetsIn), s1).

(** The exported operations, called one after the other. *)
Inductive Call : Type :=
| CallAnalyzeImage (outcome : Outcome)
| CallDescribePhoto (outcome : Outcome)
| CallGetRateLimitStatus.

Definition perform (s : Limiter) (c : Call) : Limiter :=
  match c with
  | CallAnalyzeImage outcome => snd (analyzeImage outcome s)
  | CallDescribePhoto outcome => snd (describePhoto outcome s)
  | CallGetRateLimitStatus => snd (getRateLimitStatus s)
  end.

Definition performAll (calls : list Call) (s : Limiter) : Limiter :=
  fold_left perform calls s.

End WithPlatform.

End Gemini.

(** ** The haptics service ([src/services/haptics/hapticsService.ts]) *)
Module Haptics.

(** [HapticPattern.type]: the three impact styles and the three
    notification types in one union. *)
Inductive PatternType : Type := light | medium | heavy | success | warning | error.

(** What the service asks of expo-haptics, and the pauses it takes
    ([sleep]), in order.  A call that throws is caught and logged by the
    service, so the sequence of calls attempted does not depend on whether
    the device has haptics. *)
Inductive HapticCall : Type :=
| ImpactAsync (style : PatternType)
| NotificationAsync (type : PatternType)
| SelectionAsync
| Sleep (ms : Z).

(** [count] and [interval] are whole numbers, as in [HAPTIC_PATTERNS]. *)
Record HapticPattern : Type := mkPattern {
  type : PatternType;
  count : option Z;
  interval : option Z
}.

(** [impact]: a [switch] over the three styles with no default. *)
Definition impact (style : PatternType) : list HapticCall :=
  match style with
  | light => [ImpactAsync light]
  | medium => [ImpactAsync medium]
  | heavy => [ImpactAsync heavy]
  | _ => []
  end.

Definition notify (t : PatternType) : list HapticCall :=
  match t with
  | success => [NotificationAsync success]
  | warning => [NotificationAsync warning]
  | error => [NotificationAsync error]
  | _ => []
  end.

Definition selection : list HapticCall := [SelectionAsync].

(** [value || fallback] for an optional number: [undefined] and [0] give
    the fallback. *)
Definition orElse (value : option Z) (fallback : Z) : Z :=
  match value with
  | Some n => if n =? 0 then fallback else n
  | None => fallback
  end.

(** [['success', 'warning', 'error'].includes(pattern.type)] *)
Definition isNotification (t : PatternType) : bool :=
  match t with
  | success | warning | error => true
  | _ => false
  end.

(** The [for] loop of [playPattern] from index [i] on; [rounds] is the
    number of rounds still to run, i.e. of indices from [i] below
    [count]. *)
Fixpoint playLoop (rounds : nat) (i n d : Z) (t : PatternType)
  : list HapticCall :=
  match rounds with
  | O => []
  | S rounds' =>
      (if isNotification t then notify t else impact t)
        ++ (if i <? n - 1 then [Sleep d] else [])
        ++ playLoop rounds' (i + 1) n d t
  end.

Definition playPattern (pattern : HapticPattern) : list HapticCall :=
  let n := orElse (count pattern) 1 in
  let d := orElse (interval pattern) 100 in
  playLoop (Z.to_nat n) 0 n d (type pattern).

(** [HAPTIC_PATTERNS] of [src/constants]. *)
Definition PATTERN_buttonPress := mkPattern medium None None.
Definition PATTERN_buttonActivate := mkPattern heavy None None.
Definition PATTERN_photoCapture := mkPattern success (Some 3) (Some 100).
Definition PATTERN_cameraStart := mkPattern medium (Some 2) (Some 150).
Definition PATTERN_cameraStop := mkPattern light None None.
Definition PATTERN_obstacleClose := mkPattern warning (Some 2) (Some 100).
Definition PATTERN_obstacleVeryClose := mkPattern error (Some 4) (Some 80).
Definition PATTERN_directionLeft := mkPattern light None None.
Definition PATTERN_directionRight := mkPattern light None None.
Definition PATTERN_pathClear := mkPattern success None None.

Definition obstacleClose : list HapticCall := playPattern PATTERN_obstacleClose.
Definition obstacleVeryClose : list HapticCall :=
  playPattern PATTERN_obstacleVeryClose.

(** [obstacleWarning]; [None] is an argument that is [undefined]. *)
Definition obstacleWarning (distance : option Scene.Distance) : list HapticCall :=
  match distance with
  | Some Scene.very_close => obstacleVeryClose
  | Some Scene.close => obstacleClose
  | Some Scene.medium => impact light
  | _ => []
  end.

(** The call that one pulse of a pattern of type [t] makes. *)
Definition pulseOf (t : PatternType) : HapticCall :=
  if isNotification t then NotificationAsync t else ImpactAsync t.

End Haptics.

(** ** The camera screens ([src/screens]) *)
Module CameraScreen.

(** The haptics functions a handler calls (without awaiting them). *)
Inductive HapticRequest : Type :=
| RequestObstacleVeryClose
| RequestObstacleWarning (distance : option Scene.Distance).

(** [obj.distance === 'very_close' || obj.distance === 'close'] *)
Definition isClose (obj : Scene.Detection) : bool :=
  match Scene.distance obj with
  | Some Scene.very_close | Some Scene.close => true
  | _ => false
  end.

(** [position || 'ahead'] *)
Definition positionOrAhead (p : option Scene.Position) : string :=
  match p with
  | Some p' => Scene.positionText p'
  | None => "ahead"%string
  end.

(** [`${closest.label} ${distanceText}, ${closest.position || 'ahead'}`] *)
Definition closeObjectText (closest : Scene.Detection) : string :=
  let distanceText :=
    match Scene.distance closest with
    | Some Scene.very_close => "very close"%string
    | _ => "close"%string
    end in
  String.append (Scene.label closest)
    (String.append " "
       (String.append distanceText
          (String.append ", " (positionOrAhead (Scene.position closest))))).

(** [`${obj.label}, ${obj.position || 'ahead'}`] *)
Definition objectText (obj : Scene.Detection) : string :=
  String.append (Scene.label obj)
    (String.append ", " (positionOrAhead (Scene.position obj))).

(** A string in a condition: true unless empty. *)
Definition truthy (s : string) : bool :=
  match s with
  | EmptyString => false
  | _ => true
  end.

(** The body of [scene.warnings.forEach]. *)
Definition announceWarning (acc : World * list HapticRequest) (warning : string)
  : World * list HapticRequest :=
  (speakImmediate warning (fst acc), snd acc ++ [RequestObstacleVeryClose]).

(** [announceScene] of [CameraScreen]; [verbosity] is read from the store.
    The result is the speech service afterwards and the haptics functions
    called, in order. *)
Definition announceScene (verbosity : AppStore.Verbosity)
           (scene : Scene.SceneDescription) (w : World)
  : World * list HapticRequest :=
  match Scene.warnings scene with
  | Some (first :: more) => fold_left announceWarning (first :: more) (w, [])
  | _ =>
      match filter isClose (Scene.objects scene) with
      | closest :: _ =>
          (speakHigh (closeObjectText closest) w,
           [RequestObstacleWarning (Scene.distance closest)])
      | [] =>
          match verbosity with
          | AppStore.verbosity_critical => (w, [])
          | AppStore.balanced =>
              (if truthy (Scene.summary scene)
               then speakNormal (Scene.summary scene) w else w,
               [])
          | AppStore.detailed =>
              let w1 := if truthy (Scene.summary scene)
                        then speakNormal (Scene.summary scene) w else w in
              let w2 := fold_left (fun v obj => speakLow (objectText obj) v)
                                  (Scene.objects scene) w1 in
              let w3 :=
                match Scene.text scene with
                | Some (t :: ts) =>
                    speakNormal
                      (String.append "Text visible: "
                                     (String.concat ", " (t :: ts))) w2
                | _ => w2
                end in
              (w3, [])
          end
      end
  end.

(** [CameraScreenLive]: the test of the [onText] callback. *)
Definition isUrgent (text : string) : bool :=
  JsString.includes (JsString.toLowerCase text) "stop"
  || JsString.includes (JsString.toLowerCase text) "danger"
  || JsString.includes (JsString.toLowerCase text) "warning"
  || JsString.includes (JsString.toLowerCase text) "vehicle"
  || JsString.includes (JsString.toLowerCase text) "stairs".

(** The [onText] callback given to [GeminiLiveSession]. *)
Definition onText (text : string) (w : World) : World * list HapticRequest :=
  let priority := if isUrgent text then critical else high in
  (speak text (Some priority) w,
   if isUrgent text then [RequestObstacleVeryClose] else []).

End CameraScreen.

(** ** The live session ([src/services/ai/geminiLive.ts]) *)
Module GeminiLive.

(** The callbacks the session invokes ([onAudioChunk] is never invoked by
    the class); the error object is the SDK's and is not represented.  The
    callbacks themselves are taken not to throw. *)
Inductive Callback : Type :=
| OnText (text : string)
| OnError.

(** The two private fields, with the chat session as an opaque handle, and
    the callbacks invoked so far. *)
Record Session : Type := mkSession {
  session : option nat;
  isStreaming : bool;
  invoked : list Callback
}.

(** The constructor. *)
Definition create : Session := mkSession None false [].

(** What an awaited [sendMessage] comes to: it (or [response.text()])
    throws, or the text of the response is there. *)
Inductive SendOutcome : Type :=
| SendThrew
| SendReturned (text : string).

Definition invoke (c : Callback) (s : Session) : Session :=
  mkSession (session s) (isStreaming s) (invoked s ++ [c]).

(** [if (text) this.callbacks.onText(text)] *)
Definition deliver (text : string) (s : Session) : Session :=
  match text with
  | EmptyString => s
  | _ => invoke (OnText text) s
  end.

(** [start]; [chat] is what the awaited [startChat] gives: a session
    handle, or [None] when it throws.  Like the other methods it is taken
    as running without another call in between. *)
Definition start (chat : option nat) (s : Session) : Session :=
  if isStreaming s then s
  else
    match chat with
    | Some handle => mkSession (Some handle) true (invoked s)
    | None => invoke OnError s
    end.

Definition inactive (s : Session) : bool :=
  negb (isStreaming s) || match session s with None => true | Some _ => false end.

Definition streamFrame (outcome : SendOutcome) (s : Session) : Session :=
  if inactive s then s
  else
    match outcome with
    | SendReturned text => deliver text s
    | SendThrew => invoke OnError s
    end.

Definition streamAudio (outcome : SendOutcome) (s : Session) : Session :=
  if inactive s then s
  else
    match outcome with
    | SendReturned text => deliver text s
    | SendThrew => s
    end.

Definition sendText (outcome : SendOutcome) (s : Session) : Session :=
  if inactive s then s
  else
    match outcome with
    | SendReturned text => deliver text s
    | SendThrew => s
    end.

Definition stop (s : Session) : Session := mkSession None false (invoked s).

Definition isActive (s : Session) : bool := isStreaming s.

Inductive Call : Type :=
| CallStart (chat : option nat)
| CallStreamFrame (outcome : SendOutcome)
| CallStreamAudio (outcome : SendOutcome)
| CallSendText (outcome : SendOutcome)
| CallStop.

Definition perform (s : Session) (c : Call) : Session :=
  match c with
  | CallStart chat => start chat s
  | CallStreamFrame outcome => streamFrame outcome s
  | CallStreamAudio outcome => streamAudio outcome s
  | CallSendText outcome => sendText outcome s
  | CallStop => stop s
  end.

Definition performAll (calls : list Call) (s : Session) : Session :=
  fold_left perform calls s.

Definition isStart (c : Call) : bool :=
  match c with
  | CallStart _ => true
  | _ => false
  end.

End GeminiLive.

(* ================================================================== *)
(** * Properties *)

(** ** Basic facts about the driver *)

Lemma processQueue_on_paused (q : list SpeechQueueItem) (w : World) :
  st_isPaused (state w) = true -> processQueue_on q w = w.
Proof.
  intros Hp. destruct q; simpl; rewrite Hp; reflexivity.
Qed.

Lemma processQueue_on_speaking (q : list SpeechQueueItem) (w : World) :
  st_isSpeaking (state w) = true -> processQueue_on q w = w.
Proof.
  intros Hs. destruct q; simpl; rewrite Hs, orb_true_r; reflexivity.
Qed.

Lemma processQueue_on_idle_cons (item : SpeechQueueItem)
      (rest : list SpeechQueueItem) (w : World) :
  st_isPaused (state w) = false ->
  st_isSpeaking (state w) = false ->
  processQueue_on (item :: rest) w =
    let w2 := snd (Date_now (set_queue rest w)) in
    if expiredAtPop (clock w (ticks w)) item
    then processQueue_on rest w2
    else speakItem item w2.
Proof.
  intros Hp Hs. cbn [processQueue_on]. rewrite Hp, Hs.
  reflexivity.
Qed.

Lemma expiredAtPop_critical (now : Z) (item : SpeechQueueItem) :
  priority item = critical -> expiredAtPop now item = false.
Proof.
  intros Hc. unfold expiredAtPop. rewrite Hc. apply andb_false_r.
Qed.

Lemma filter_isCritical_Forall (q : list SpeechQueueItem) :
  Forall (fun item => priority item = critical) (filter isCritical q).
Proof.
  apply Forall_forall. intros item Hin. apply filter_In in Hin.
  destruct Hin as [_ Hc]. unfold isCritical in Hc.
  destruct (priority item); simpl in Hc; congruence.
Qed.

(** The queue that [addToQueue] leaves. *)
Lemma addToQueue_queue (txt : string) (p : Priority) (w : World) :
  st_queue (state (addToQueue txt p w))
  = filter (withinTimeout (clock w (S (S (ticks w)))))
           (sort (st_queue (state w) ++ [newItem txt p w])).
Proof. reflexivity. Qed.

(** ** What [speakImmediate] does, case by case *)

Lemma speakImmediate_paused (w : World) (txt : string) :
  st_isPaused (state w) = true ->
  speakImmediate txt w =
    mkWorld (mkState false
                     (newItem txt critical w
                        :: filter isCritical (st_queue (state w)))
                     (st_currentLanguage (state w))
                     (st_speechRate (state w)) true)
            (lastAnnouncementTime w) (engine w ++ [EngineStop]) (timers w)
            (clock w) (S (S (ticks w))) (random w) (S (draws w)).
Proof.
  intros Hp.
  destruct w as [[sp q lang rate pa] last eng tm ck tk rd dr].
  cbn in Hp. subst pa. reflexivity.
Qed.

Lemma speakImmediate_running (w : World) (txt : string) :
  st_isPaused (state w) = false ->
  speakImmediate txt w =
    mkWorld (mkState true
                     (filter isCritical (st_queue (state w)))
                     (st_currentLanguage (state w))
                     (st_speechRate (state w)) false)
            (lastAnnouncementTime w)
            ((engine w ++ [EngineStop]) ++ [speakCall txt w]) (timers w)
            (clock w) (S (S (S (ticks w)))) (random w) (S (draws w)).
Proof.
  intros Hp.
  destruct w as [[sp q lang rate pa] last eng tm ck tk rd dr].
  cbn in Hp. subst pa.
  unfold speakImmediate, processQueue. cbn.
  rewrite expiredAtPop_critical by reflexivity. reflexivity.
Qed.

(** [resume] right after a paused [speakImmediate]. *)
Lemma resume_after_paused_speakImmediate (w : World) (txt : string) :
  st_isPaused (state w) = true ->
  resume (speakImmediate txt w) =
    mkWorld (mkState true
                     (filter isCritical (st_queue (state w)))
                     (st_currentLanguage (state w))
                     (st_speechRate (state w)) false)
            (lastAnnouncementTime w)
            ((engine w ++ [EngineStop]) ++ [speakCall txt w]) (timers w)
            (clock w) (S (S (S (ticks w)))) (random w) (S (draws w)).
Proof.
  intros Hp. rewrite speakImmediate_paused by exact Hp.
  unfold resume, processQueue. cbn.
  rewrite expiredAtPop_critical by reflexivity. reflexivity.
Qed.

Lemma spokenTexts_app (l1 l2 : list EngineCall) :
  spokenTexts (l1 ++ l2) = spokenTexts l1 ++ spokenTexts l2.
Proof.
  induction l1 as [|c l1 IH]; [reflexivity|].
  destruct c; cbn; rewrite IH; reflexivity.
Qed.

Lemma spokenSince_app (w w' : World) (calls : list EngineCall) :
  engine w' = engine w ++ calls -> spokenSince w w' = spokenTexts calls.
Proof.
  intros E. unfold spokenSince. rewrite E.
  rewrite skipn_app, skipn_all, Nat.sub_diag. reflexivity.
Qed.

Lemma speakNormal_throttled (w : World) (txt : string) :
  clock w (ticks w) - lastAnnouncementTime w < MIN_ANNOUNCEMENT_GAP ->
  speakNormal txt w = snd (Date_now w).
Proof.
  intros Hgap. unfold speakNormal. cbn.
  apply Z.ltb_lt in Hgap. rewrite Hgap. reflexivity.
Qed.

Lemma speakNormal_accepted (w : World) (txt : string) :
  ~ clock w (ticks w) - lastAnnouncementTime w < MIN_ANNOUNCEMENT_GAP ->
  speakNormal txt w = processQueue (addToQueue txt normal (snd (Date_now w))).
Proof.
  intros Hgap. unfold speakNormal. cbn.
  apply Z.ltb_nlt in Hgap. rewrite Hgap. reflexivity.
Qed.

Lemma spokenSince_same (w w' : World) :
  engine w' = engine w -> spokenSince w w' = [].
Proof.
  intros E. apply (spokenSince_app w w' []). rewrite app_nil_r. exact E.
Qed.

Lemma processQueue_paused (w : World) :
  st_isPaused (state w) = true -> processQueue w = w.
Proof.
  apply processQueue_on_paused.
Qed.

(** While the service is paused, nothing but [resume] makes it hand a
    text to the engine. *)
Lemma paused_step_speaks_nothing (w : World) (e : Event) :
  st_isPaused (state w) = true ->
  e <> CallResume ->
  spokenSince w (step w e) = [].
Proof.
  intros Hp He.
  destruct e; cbn [step]; try congruence;
    try (apply spokenSince_same; reflexivity).
  - unfold speakHigh. rewrite processQueue_paused by exact Hp.
    apply spokenSince_same. reflexivity.
  - destruct (Z_lt_dec (clock w (ticks w) - lastAnnouncementTime w)
                       MIN_ANNOUNCEMENT_GAP) as [Hgap | Hgap].
    + rewrite speakNormal_throttled by exact Hgap.
      apply spokenSince_same. reflexivity.
    + rewrite speakNormal_accepted by exact Hgap.
      rewrite processQueue_paused by exact Hp.
      apply spokenSince_same. reflexivity.
  - unfold speakLow. rewrite processQueue_paused by exact Hp.
    apply spokenSince_same. reflexivity.
  - apply (spokenSince_app w (pause w) [EngineStop]). reflexivity.
  - apply (spokenSince_app w (stop w) [EngineStop]). reflexivity.
  - unfold timerFires. destruct (timers w) as [|n].
    + apply spokenSince_same. reflexivity.
    + rewrite processQueue_paused by exact Hp.
      apply spokenSince_same. reflexivity.
Qed.

(** ** stop, pause and critical interruption *)

(** C9.  From every state, [stop] calls the engine's stop, empties the
    queue and clears both playback flags: afterwards [isSpeaking()] is
    false, [getQueueLength()] is 0 and [isPaused] is false; nothing is
    handed to the engine to speak; and a second [stop] leaves the service
    state exactly as the first one left it. *)
Theorem stop_resets_playback (w : World) :
  let w' := stop w in
  engine w' = engine w ++ [EngineStop]
  /\ spokenSince w w' = []
  /\ isSpeaking w' = false
  /\ getQueueLength w' = 0
  /\ st_isPaused (state w') = false
  /\ st_queue (state w') = []
  /\ state (stop w') = state w'
  /\ isSpeaking (stop w') = false
  /\ getQueueLength (stop w') = 0.
Proof.
  cbv zeta. split; [reflexivity|].
  split; [apply spokenSince_app with (calls := [EngineStop]); reflexivity|].
  unfold stop, Speech_stop, isSpeaking, getQueueLength.
  repeat split.
Qed.

(** C10.  While the service is paused, [speakImmediate] still stops the
    engine and puts the critical item at the front of the queue (behind it
    only the critical items that were queued), but hands nothing to the
    engine: [processQueue] returns at once, [isSpeaking()] is false, the
    service stays paused.  No call or event other than [resume] makes
    the paused service speak; the item is spoken by the [resume] that
    follows. *)
Theorem paused_critical_waits_for_resume (w : World) (txt : string) :
  st_isPaused (state w) = true ->
  let w1 := speakImmediate txt w in
  engine w1 = engine w ++ [EngineStop]
  /\ spokenSince w w1 = []
  /\ isSpeaking w1 = false
  /\ st_isPaused (state w1) = true
  /\ st_queue (state w1)
     = newItem txt critical w :: filter isCritical (st_queue (state w))
  /\ processQueue w1 = w1
  /\ engine (resume w1) = engine w1 ++ [speakCall txt w]
  /\ spokenSince w1 (resume w1) = [txt]
  /\ isSpeaking (resume w1) = true
  /\ st_queue (state (resume w1)) = filter isCritical (st_queue (state w))
  /\ (forall e, e <> CallResume -> spokenSince w1 (step w1 e) = []).
Proof.
  intros Hp. cbv zeta.
  assert (Hp1 : st_isPaused (state (speakImmediate txt w)) = true)
    by (rewrite speakImmediate_paused by exact Hp; reflexivity).
  pose proof (fun e => paused_step_speaks_nothing
                         (speakImmediate txt w) e Hp1) as Hquiet.
  revert Hquiet. generalize (step (speakImmediate txt w)). intros stp Hquiet.
  rewrite resume_after_paused_speakImmediate by exact Hp.
  revert Hquiet.
  rewrite speakImmediate_paused by exact Hp. intros Hquiet.
  unfold isSpeaking, processQueue. cbn [engine state st_isSpeaking st_isPaused st_queue].
  repeat split;
    first [ exact Hquiet
          | apply processQueue_on_paused; reflexivity
          | apply spokenSince_app with (calls := [EngineStop]); reflexivity
          | apply spokenSince_app with (calls := [speakCall txt w]);
            reflexivity ].
Qed.

Lemma paused_critical_waits_for_resume_witness :
  st_isPaused (state (pause freshWorld)) = true
  /\ isSpeaking (speakImmediate "Stop"%string (pause freshWorld)) = false
  /\ spokenSince (pause freshWorld)
       (resume (speakImmediate "Stop"%string (pause freshWorld)))
     = ["Stop"%string].
Proof.
  split; [reflexivity|].
  destruct (paused_critical_waits_for_resume (pause freshWorld) "Stop"%string
              eq_refl) as (_ & _ & Hs & _).
  split; [exact Hs | reflexivity].
Defined.

(** C2 (as stated, refuted).  With one critical alert waiting in a paused
    service, a second [speakImmediate] followed by [resume] hands the new
    text to the engine first; the earlier alert is still queued behind it. *)
Lemma criticalsServedFifo_fails :
  ~ criticalsServedFifo pausedWithCritical "Car approaching"%string.
Proof.
  intros H.
  specialize (H (newItem "Stairs ahead"%string critical
                         (set_isSpeaking false (Speech_stop (pause freshWorld))))
                [] eq_refl).
  vm_compute in H. discriminate H.
Qed.

(** C2 (amended).  From every state, [speakImmediate txt] drops every
    queued item that is not critical and makes [txt] the next utterance
    handed to the engine, whatever was queued and whatever the clock says:
    at once when the service is not paused, at the following [resume] when
    it is.  Critical items that were already queued are kept, in their
    order, behind the new one. *)
Theorem speakImmediate_is_spoken_next (w : World) (txt : string) :
  let w1 := speakImmediate txt w in
  let w2 := if st_isPaused (state w) then resume w1 else w1 in
  engine w2 = engine w ++ [EngineStop; speakCall txt w]
  /\ spokenSince w w2 = [txt]
  /\ isSpeaking w2 = true
  /\ st_queue (state w2) = filter isCritical (st_queue (state w))
  /\ Forall (fun item => priority item = critical) (st_queue (state w2)).
Proof.
  cbv zeta.
  assert (E : (if st_isPaused (state w)
               then resume (speakImmediate txt w)
               else speakImmediate txt w)
              = mkWorld (mkState true
                           (filter isCritical (st_queue (state w)))
                           (st_currentLanguage (state w))
                           (st_speechRate (state w)) false)
                  (lastAnnouncementTime w)
                  ((engine w ++ [EngineStop]) ++ [speakCall txt w]) (timers w)
                  (clock w) (S (S (S (ticks w)))) (random w) (S (draws w))).
  { destruct (st_isPaused (state w)) eqn:Hp.
    - apply resume_after_paused_speakImmediate, Hp.
    - apply speakImmediate_running, Hp. }
  rewrite E. unfold isSpeaking. cbn [engine state st_isSpeaking st_queue].
  rewrite <- app_assoc. cbn [app].
  repeat split.
  - apply spokenSince_app with (calls := [EngineStop; speakCall txt w]).
    reflexivity.
  - apply filter_isCritical_Forall.
Qed.

(** C7 (as stated, refuted).  While a message is being spoken, a normal
    utterance is queued and a critical one follows at once: the critical
    interruption removes the normal item from the queue although its age
    is 0. *)
Lemma normalSurvivesCritical_fails :
  ~ normalSurvivesCritical busyWorld "A"%string "B"%string.
Proof.
  intros [_ [Hin | Hexp]].
  - vm_compute in Hin. exact Hin.
  - vm_compute in Hexp. apply Hexp. reflexivity.
Qed.

(** C7 (amended).  After [speak a 'normal'] and then [speak b 'critical'],
    [b] is the next utterance handed to the engine (at once, or at the
    following [resume] when the service is paused) and the normal item
    does not remain queued: the interruption stops the engine, which cuts
    [a] off if it was already playing, and keeps only the critical items of
    the queue. *)
Theorem critical_after_normal_drops_normal (w : World) (a b : string) :
  let w1 := speak a (Some normal) w in
  let w2 := speak b (Some critical) w1 in
  let w3 := if st_isPaused (state w1) then resume w2 else w2 in
  engine w3 = engine w1 ++ [EngineStop; speakCall b w1]
  /\ spokenSince w1 w3 = [b]
  /\ st_queue (state w2)
     = (if st_isPaused (state w1) then [newItem b critical w1] else [])
       ++ filter isCritical (st_queue (state w1))
  /\ (forall item, In item (st_queue (state w2)) -> priority item = critical)
  /\ (forall item, priority item = normal -> ~ In item (st_queue (state w2))).
Proof.
  cbv zeta. cbn [speak].
  set (w1 := speakNormal a w).
  assert (Hq : st_queue (state (speakImmediate b w1))
               = (if st_isPaused (state w1) then [newItem b critical w1] else [])
                 ++ filter isCritical (st_queue (state w1))).
  { destruct (st_isPaused (state w1)) eqn:Hp.
    - rewrite speakImmediate_paused by exact Hp. reflexivity.
    - rewrite speakImmediate_running by exact Hp. reflexivity. }
  assert (Hc : forall item, In item (st_queue (state (speakImmediate b w1))) ->
                            priority item = critical).
  { intros item Hin. rewrite Hq in Hin. apply in_app_or in Hin.
    destruct Hin as [Hin | Hin].
    - destruct (st_isPaused (state w1)); cbn in Hin; [|contradiction].
      destruct Hin as [<- | []]. reflexivity.
    - revert item Hin. apply Forall_forall, filter_isCritical_Forall. }
  assert (E : engine (if st_isPaused (state w1)
                      then resume (speakImmediate b w1)
                      else speakImmediate b w1)
              = engine w1 ++ [EngineStop; speakCall b w1]).
  { destruct (st_isPaused (state w1)) eqn:Hp.
    - rewrite resume_after_paused_speakImmediate by exact Hp.
      cbn [engine]. rewrite <- app_assoc. reflexivity.
    - rewrite speakImmediate_running by exact Hp.
      cbn [engine]. rewrite <- app_assoc. reflexivity. }
  split; [exact E|].
  split; [apply spokenSince_app with (calls := [EngineStop; speakCall b w1]);
          exact E|].
  split; [exact Hq|].
  split; [exact Hc|].
  intros item Hn Hin. apply Hc in Hin. congruence.
Qed.

Lemma critical_after_normal_drops_normal_witness :
  st_queue (state (speak "B"%string (Some critical)
                         (speak "A"%string (Some normal) busyWorld))) = [].
Proof.
  destruct (critical_after_normal_drops_normal busyWorld "A"%string "B"%string)
    as (_ & _ & Hq & _).
  exact Hq.
Defined.

(** ** Expiry *)

(** The sweep of [addToQueue] keeps an item only while its age is below
    the timeout of its priority; the timeout of [critical] is 0, so a
    critical item whose timestamp is not in the future is never kept. *)
Lemma withinTimeout_critical (now : Z) (item : SpeechQueueItem) :
  priority item = critical ->
  timestamp item <= now ->
  withinTimeout now item = false.
Proof.
  intros Hc Hts. unfold withinTimeout. rewrite Hc. cbn.
  apply Z.ltb_ge. lia.
Qed.

(** Hence no critical item of the past or present survives an
    [addToQueue], whatever is being submitted. *)
Lemma addToQueue_keeps_no_past_critical (txt : string) (p : Priority)
      (w : World) (item : SpeechQueueItem) :
  In item (st_queue (state (addToQueue txt p w))) ->
  priority item = critical ->
  clock w (S (S (ticks w))) < timestamp item.
Proof.
  intros Hin Hc. rewrite addToQueue_queue in Hin.
  apply filter_In in Hin. destruct Hin as [_ Hkeep].
  destruct (Z_lt_dec (clock w (S (S (ticks w)))) (timestamp item)) as [H | H];
    [exact H|].
  rewrite withinTimeout_critical in Hkeep by (assumption || lia).
  discriminate Hkeep.
Qed.

(** C1 (the code at the failing input).  A critical alert is waiting in
    the paused service; the next [speakHigh], made at the very same clock
    reading, removes it in the expiry sweep of [addToQueue]: only the new
    high item is queued afterwards, and nothing was handed to the engine. *)
Theorem sweep_discards_waiting_critical :
  map text (st_queue (state pausedWithCritical)) = ["Stairs ahead"%string]
  /\ map priority (st_queue (state pausedWithCritical)) = [critical]
  /\ map text (st_queue (state (speakHigh "Door ahead"%string pausedWithCritical)))
     = ["Door ahead"%string]
  /\ spokenTexts (engine (speakHigh "Door ahead"%string pausedWithCritical)) = [].
Proof.
  vm_compute. repeat split.
Qed.

(** At pop time a non-critical item at the head of the queue of an idle
    service is discarded as soon as its age exceeds its timeout. *)
Lemma processQueue_skips_expired_head (item : SpeechQueueItem)
      (rest : list SpeechQueueItem) (w : World) :
  st_isPaused (state w) = false ->
  st_isSpeaking (state w) = false ->
  priority item <> critical ->
  timestamp item + PRIORITY_TIMEOUT (priority item) < clock w (ticks w) ->
  processQueue_on (item :: rest) w
  = processQueue_on rest (snd (Date_now (set_queue rest w))).
Proof.
  intros Hp Hs Hc Hage.
  rewrite processQueue_on_idle_cons by assumption. cbv zeta.
  unfold expiredAtPop.
  replace (_ >? _) with true by (symmetry; apply Z.gtb_lt; lia).
  destruct (priority item); try congruence; reflexivity.
Qed.

(** An item whose age is at most its timeout, the boundary included, is
    handed to the engine at pop time ... *)
Lemma processQueue_speaks_head_up_to_timeout (item : SpeechQueueItem)
      (rest : list SpeechQueueItem) (w : World) :
  st_isPaused (state w) = false ->
  st_isSpeaking (state w) = false ->
  clock w (ticks w) - timestamp item <= PRIORITY_TIMEOUT (priority item) ->
  processQueue_on (item :: rest) w
  = speakItem item (snd (Date_now (set_queue rest w))).
Proof.
  intros Hp Hs Hage.
  rewrite processQueue_on_idle_cons by assumption. cbv zeta.
  unfold expiredAtPop.
  replace (_ >? _) with false; [reflexivity|].
  symmetry. rewrite Z.gtb_ltb. apply Z.ltb_ge. exact Hage.
Qed.

(** ... while the sweep of [addToQueue] already removes an item whose age
    equals its timeout. *)
Lemma withinTimeout_at_timeout (now : Z) (item : SpeechQueueItem) :
  now - timestamp item = PRIORITY_TIMEOUT (priority item) ->
  withinTimeout now item = false.
Proof.
  intros Hage. unfold withinTimeout. apply Z.ltb_ge. lia.
Qed.

(** C6 (the code at the failing input).  A high item submitted at time 0
    waits in the paused service; [resume] runs [processQueue] when the
    clock reads 5000 = 0 + 5000 and the item is handed to the engine, not
    skipped.  At the same reading the sweep of [addToQueue] treats the item
    as expired: a [speakLow] made then removes it. *)
Theorem high_item_spoken_at_timeout :
  map timestamp (st_queue (state pausedWithHigh)) = [0]
  /\ map priority (st_queue (state pausedWithHigh)) = [high]
  /\ clock pausedWithHigh (ticks pausedWithHigh) = 0 + PRIORITY_TIMEOUT high
  /\ spokenSince pausedWithHigh (resume pausedWithHigh) = ["Door ahead"%string]
  /\ map text (st_queue (state (speakLow "Bench"%string pausedWithHigh)))
     = ["Bench"%string].
Proof.
  vm_compute. repeat split.
Qed.

(** ** Throttle *)

(** C8 (as stated, refuted).  Two [speakNormal] calls at the same clock
    reading on the fresh service: the first is spoken at once, the second
    is queued, so the second call changes the queue length from 0 to 1. *)
Lemma secondNormalDropped_fails :
  ~ secondNormalDropped freshWorld "A"%string "B"%string.
Proof.
  unfold secondNormalDropped. cbv zeta. intros H.
  assert (Hgap : 0 <= clock (speakNormal "A"%string freshWorld)
                            (ticks (speakNormal "A"%string freshWorld))
                      - clock freshWorld (ticks freshWorld)
                 < MIN_ANNOUNCEMENT_GAP).
  { vm_compute. split; [discriminate | reflexivity]. }
  specialize (H Hgap). vm_compute in H. discriminate H.
Qed.

(** C8 (amended).  A [speakNormal] made less than [MIN_ANNOUNCEMENT_GAP]
    after [lastAnnouncementTime] is dropped: the service state, hence
    [getQueueLength()], is unchanged and nothing is handed to the engine.
    [lastAnnouncementTime] is the clock reading taken when an utterance
    finishes playing ([onDone]); the time of an earlier submission plays
    no part. *)
Theorem speakNormal_dropped_within_gap_of_last_playback
        (w : World) (txt : string) :
  clock w (ticks w) - lastAnnouncementTime w < MIN_ANNOUNCEMENT_GAP ->
  let w' := speakNormal txt w in
  state w' = state w
  /\ getQueueLength w' = getQueueLength w
  /\ engine w' = engine w
  /\ lastAnnouncementTime w' = lastAnnouncementTime w
  /\ lastAnnouncementTime (onDone w) = clock w (ticks w).
Proof.
  intros Hgap. cbv zeta.
  rewrite speakNormal_throttled by exact Hgap.
  unfold getQueueLength. cbn.
  repeat split.
Qed.

Lemma speakNormal_dropped_within_gap_of_last_playback_witness :
  getQueueLength (speakNormal "B"%string (onDone (speakNormal "A"%string freshWorld)))
  = getQueueLength (onDone (speakNormal "A"%string freshWorld)).
Proof.
  destruct (speakNormal_dropped_within_gap_of_last_playback
              (onDone (speakNormal "A"%string freshWorld)) "B"%string)
    as (_ & Hlen & _).
  - reflexivity.
  - exact Hlen.
Defined.

(** ** The order of the queue *)

Lemma compareItems_not_gt (a b : SpeechQueueItem) :
  (compareItems a b >? 0) = false <-> queueOrder a b.
Proof.
  unfold compareItems, queueOrder.
  destruct (priority a), (priority b); cbn;
    try (split; [intros _; lia | reflexivity]);
    try (split; [discriminate | intros [H | [H _]]; lia]);
    (split;
     [ intros H; right; split; [reflexivity|];
       destruct (Z.gtb_spec (timestamp a - timestamp b) 0); [discriminate | lia]
     | intros [H | [_ H]]; [lia|];
       destruct (Z.gtb_spec (timestamp a - timestamp b) 0); [lia | reflexivity] ]).
Qed.

Lemma compareItems_gt (a b : SpeechQueueItem) :
  (compareItems a b >? 0) = true ->
  queueOrder b a
  /\ (priority a = priority b -> timestamp b < timestamp a).
Proof.
  unfold compareItems, queueOrder.
  destruct (priority a), (priority b); cbn; intros H;
    try discriminate;
    try (split; [left; lia | discriminate]);
    (apply Z.gtb_lt in H; split; [right; lia | lia]).
Qed.

Lemma queueOrder_trans (a b c : SpeechQueueItem) :
  queueOrder a b -> queueOrder b c -> queueOrder a c.
Proof.
  unfold queueOrder. lia.
Qed.

Lemma sort_insert_In (x y : SpeechQueueItem) (l : list SpeechQueueItem) :
  In y (sort_insert x l) <-> y = x \/ In y l.
Proof.
  induction l as [|z l IH]; cbn.
  - intuition congruence.
  - destruct (compareItems x z >? 0); cbn; rewrite ?IH; intuition congruence.
Qed.

Lemma sort_In (y : SpeechQueueItem) (l : list SpeechQueueItem) :
  In y (sort l) <-> In y l.
Proof.
  induction l as [|x l IH]; cbn; [reflexivity|].
  rewrite sort_insert_In, IH. intuition congruence.
Qed.

Lemma sort_insert_sorted (x : SpeechQueueItem) (l : list SpeechQueueItem) :
  StronglySorted queueOrder l -> StronglySorted queueOrder (sort_insert x l).
Proof.
  induction 1 as [|z l Hs IH Hz]; cbn.
  - repeat constructor.
  - destruct (compareItems x z >? 0) eqn:E.
    + constructor; [exact IH|].
      apply Forall_forall. intros y Hy. apply sort_insert_In in Hy.
      destruct Hy as [-> | Hy].
      * apply compareItems_gt in E. apply E.
      * rewrite Forall_forall in Hz. apply Hz, Hy.
    + apply compareItems_not_gt in E.
      constructor; [constructor; assumption|].
      constructor; [exact E|].
      apply Forall_forall. intros y Hy. rewrite Forall_forall in Hz.
      eapply queueOrder_trans; [exact E | apply Hz, Hy].
Qed.

Lemma sort_sorted (l : list SpeechQueueItem) :
  StronglySorted queueOrder (sort l).
Proof.
  induction l as [|x l IH]; cbn; [constructor|].
  apply sort_insert_sorted, IH.
Qed.

Lemma filter_sorted (f : SpeechQueueItem -> bool) (l : list SpeechQueueItem) :
  StronglySorted queueOrder l -> StronglySorted queueOrder (filter f l).
Proof.
  induction 1 as [|z l Hs IH Hz]; cbn; [constructor|].
  destruct (f z); [|exact IH].
  constructor; [exact IH|].
  apply Forall_forall. intros y Hy. apply filter_In in Hy.
  rewrite Forall_forall in Hz. apply Hz, Hy.
Qed.

Lemma sorted_suffix (pre l : list SpeechQueueItem) :
  StronglySorted queueOrder (pre ++ l) -> StronglySorted queueOrder l.
Proof.
  induction pre as [|x pre IH]; cbn; [auto|].
  intros H. inversion H; subst. auto.
Qed.

(** [processQueue] only takes items off the front of the queue. *)
Lemma processQueue_on_suffix (q : list SpeechQueueItem) :
  forall w, st_queue (state w) = q ->
  exists pre, q = pre ++ st_queue (state (processQueue_on q w)).
Proof.
  induction q as [|item rest IH]; intros w Hq.
  - exists []. cbn. rewrite orb_true_r. cbn. symmetry. exact Hq.
  - cbn [processQueue_on].
    destruct (st_isPaused (state w) || st_isSpeaking (state w)
              || (Z.of_nat (List.length (item :: rest)) =? 0)).
    + exists []. symmetry. exact Hq.
    + cbn. destruct (expiredAtPop (clock w (ticks w)) item).
      * destruct (IH (snd (Date_now (set_queue rest w))) eq_refl) as [pre Hpre].
        exists (item :: pre). cbn. f_equal. exact Hpre.
      * exists [item]. reflexivity.
Qed.

Lemma processQueue_sorted (w : World) :
  StronglySorted queueOrder (st_queue (state w)) ->
  StronglySorted queueOrder (st_queue (state (processQueue w))).
Proof.
  intros Hs. unfold processQueue.
  destruct (processQueue_on_suffix (st_queue (state w)) w eq_refl) as [pre Hpre].
  rewrite Hpre in Hs. eapply sorted_suffix, Hs.
Qed.

Lemma addToQueue_sorted (txt : string) (p : Priority) (w : World) :
  StronglySorted queueOrder (st_queue (state (addToQueue txt p w))).
Proof.
  rewrite addToQueue_queue. apply filter_sorted, sort_sorted.
Qed.

Lemma step_sorted (w : World) (e : Event) :
  StronglySorted queueOrder (st_queue (state w)) ->
  StronglySorted queueOrder (st_queue (state (step w e))).
Proof.
  intros Hs. destruct e; cbn [step];
    try (apply processQueue_sorted, addToQueue_sorted);
    try exact Hs.
  - destruct (Z_lt_dec (clock w (ticks w) - lastAnnouncementTime w)
                       MIN_ANNOUNCEMENT_GAP) as [Hgap | Hgap].
    + rewrite speakNormal_throttled by exact Hgap. exact Hs.
    + rewrite speakNormal_accepted by exact Hgap.
      apply processQueue_sorted, addToQueue_sorted.
  - apply processQueue_sorted. exact Hs.
  - constructor.
  - unfold timerFires. destruct (timers w); [exact Hs|].
    apply processQueue_sorted. exact Hs.
Qed.

Lemma run_sorted (evs : list Event) :
  forall w, StronglySorted queueOrder (st_queue (state w)) ->
            StronglySorted queueOrder (st_queue (state (run evs w))).
Proof.
  induction evs as [|e evs IH]; intros w Hs; [exact Hs|].
  change (run (e :: evs) w) with (run evs (step w e)).
  apply IH, step_sorted, Hs.
Qed.

(** ** The sort is the stable sort

    [sort] was written as an insertion sort.  What the engine's
    [Array.prototype.sort] guarantees is less specific: the result is in
    comparator order and items that compare equal keep their relative
    order.  These two properties determine the result, so any such
    algorithm returns what [sort] returns. *)

Lemma sameKey_spec (a b : SpeechQueueItem) :
  sameKey a b = true <-> priority a = priority b /\ timestamp a = timestamp b.
Proof.
  unfold sameKey, compareItems.
  destruct (priority a), (priority b); cbn;
    try (split; [discriminate | intros [H _]; discriminate H]);
    (split; [intros H; apply Z.eqb_eq in H; split; [reflexivity | lia]
            | intros [_ H]; apply Z.eqb_eq; lia]).
Qed.

Lemma sameKey_refl (a : SpeechQueueItem) : sameKey a a = true.
Proof. apply sameKey_spec. split; reflexivity. Qed.

Lemma sameKey_gt_exclusive (k x y : SpeechQueueItem) :
  (compareItems x y >? 0) = true ->
  sameKey k x = true -> sameKey k y = true -> False.
Proof.
  intros Hgt Hx Hy. apply compareItems_gt in Hgt. destruct Hgt as [_ Hts].
  apply sameKey_spec in Hx, Hy.
  destruct Hx as [Hpx Htx], Hy as [Hpy Hty].
  assert (Hp : priority x = priority y) by congruence.
  specialize (Hts Hp). lia.
Qed.

Lemma sort_insert_stable (k x : SpeechQueueItem) (l : list SpeechQueueItem) :
  filter (sameKey k) (sort_insert x l) = filter (sameKey k) (x :: l).
Proof.
  induction l as [|y l IH]; [reflexivity|].
  cbn [sort_insert]. destruct (compareItems x y >? 0) eqn:E; [|reflexivity].
  cbn [filter] in *. rewrite IH.
  destruct (sameKey k y) eqn:Ey, (sameKey k x) eqn:Ex; try reflexivity.
  exfalso. exact (sameKey_gt_exclusive k x y E Ex Ey).
Qed.

Lemma sort_stable (k : SpeechQueueItem) (l : list SpeechQueueItem) :
  filter (sameKey k) (sort l) = filter (sameKey k) l.
Proof.
  induction l as [|x l IH]; [reflexivity|].
  change (sort (x :: l)) with (sort_insert x (sort l)).
  rewrite sort_insert_stable. cbn. rewrite IH. reflexivity.
Qed.

Lemma queueOrder_antisym (a b : SpeechQueueItem) :
  queueOrder a b -> queueOrder b a -> sameKey a b = true.
Proof.
  unfold queueOrder. intros Hab Hba. apply sameKey_spec.
  destruct (priority a), (priority b); cbn in *;
    split; try reflexivity; lia.
Qed.

Lemma sorted_stable_unique (l1 : list SpeechQueueItem) :
  forall l2,
    StronglySorted queueOrder l1 ->
    StronglySorted queueOrder l2 ->
    (forall k, filter (sameKey k) l1 = filter (sameKey k) l2) ->
    l1 = l2.
Proof.
  induction l1 as [|a l1 IH]; intros l2 Hs1 Hs2 H.
  - destruct l2 as [|b l2]; [reflexivity|].
    specialize (H b). cbn in H. rewrite sameKey_refl in H. discriminate H.
  - destruct l2 as [|b l2].
    { specialize (H a). cbn in H. rewrite sameKey_refl in H. discriminate H. }
    inversion Hs1 as [|? ? Hs1' Ha]; subst.
    inversion Hs2 as [|? ? Hs2' Hb]; subst.
    assert (Hab : a = b).
    { pose proof (H a) as Hka. cbn in Hka. rewrite sameKey_refl in Hka.
      destruct (sameKey a b) eqn:E; [injection Hka as Hka _; exact Hka|].
      exfalso.
      assert (Hina : In a l2).
      { assert (Hin : In a (filter (sameKey a) l2))
          by (rewrite <- Hka; left; reflexivity).
        apply filter_In in Hin. apply Hin. }
      pose proof (H b) as Hkb. cbn in Hkb. rewrite sameKey_refl in Hkb.
      assert (Eba : sameKey b a = false).
      { destruct (sameKey b a) eqn:Eba; [|reflexivity].
        apply sameKey_spec in Eba.
        assert (sameKey a b = true)
          by (apply sameKey_spec; destruct Eba; split; congruence).
        congruence. }
      rewrite Eba in Hkb.
      assert (Hinb : In b l1).
      { assert (Hin : In b (filter (sameKey b) l1))
          by (rewrite Hkb; left; reflexivity).
        apply filter_In in Hin. apply Hin. }
      rewrite Forall_forall in Ha, Hb.
      pose proof (queueOrder_antisym a b (Ha b Hinb) (Hb a Hina)).
      congruence. }
    subst b. f_equal. apply IH; try assumption.
    intros k. specialize (H k). cbn in H.
    destruct (sameKey k a); [injection H as H; exact H | exact H].
Qed.

(** Every output that is in queue order and keeps equal items in their
    input order is the output of [sort]. *)
Lemma sort_is_the_stable_sort (l l' : list SpeechQueueItem) :
  StronglySorted queueOrder l' ->
  (forall k, filter (sameKey k) l' = filter (sameKey k) l) ->
  l' = sort l.
Proof.
  intros Hs Hst. apply sorted_stable_unique.
  - exact Hs.
  - apply sort_sorted.
  - intros k. rewrite Hst, sort_stable. reflexivity.
Qed.

(** ** Positions in a sorted queue *)

Lemma sorted_nth_error (l : list SpeechQueueItem) :
  StronglySorted queueOrder l ->
  forall i j a b,
    nth_error l i = Some a -> nth_error l j = Some b -> (i < j)%nat ->
    queueOrder a b.
Proof.
  induction 1 as [|z l Hs IH Hz]; intros i j a b Hi Hj Hij.
  - destruct i; discriminate.
  - destruct j as [|j]; [lia|].
    destruct i as [|i]; cbn in Hi, Hj.
    + injection Hi as <-. rewrite Forall_forall in Hz.
      apply Hz. eapply nth_error_In, Hj.
    + apply (IH i j); [assumption | assumption | lia].
Qed.

(** ** What the operations leave alone *)

Lemma processQueue_on_frame (q : list SpeechQueueItem) :
  forall w,
    let w' := processQueue_on q w in
    clock w' = clock w
    /\ (ticks w <= ticks w')%nat
    /\ lastAnnouncementTime w' = lastAnnouncementTime w
    /\ st_isPaused (state w') = st_isPaused (state w)
    /\ st_currentLanguage (state w') = st_currentLanguage (state w)
    /\ st_speechRate (state w') = st_speechRate (state w).
Proof.
  induction q as [|item rest IH]; intros w; cbv zeta.
  - cbn. rewrite orb_true_r. repeat split; lia.
  - cbn [processQueue_on].
    destruct (st_isPaused (state w) || st_isSpeaking (state w)
              || (Z.of_nat (List.length (item :: rest)) =? 0)).
    + repeat split; lia.
    + cbn. destruct (expiredAtPop (clock w (ticks w)) item).
      * destruct (IH (snd (Date_now (set_queue rest w))))
          as (Hc & Ht & Hl & Hp & Hlang & Hr).
        cbn in *. rewrite Hc, Hl, Hp, Hlang, Hr. repeat split; lia.
      * cbn. repeat split; lia.
Qed.

Lemma processQueue_on_incl (q : list SpeechQueueItem) (w : World) :
  st_queue (state w) = q ->
  incl (st_queue (state (processQueue_on q w))) q.
Proof.
  intros Hq. destruct (processQueue_on_suffix q w Hq) as [pre Hpre].
  intros x Hx. rewrite Hpre. apply in_or_app. right. exact Hx.
Qed.

Lemma wellStamped_later (w w' : World) :
  clock w' = clock w ->
  (ticks w <= ticks w')%nat ->
  incl (st_queue (state w')) (st_queue (state w)) ->
  wellStamped w -> wellStamped w'.
Proof.
  intros Hc Ht Hi Hw item Hin k Hk.
  rewrite Hc. apply Hw; [apply Hi, Hin | lia].
Qed.

Lemma processQueue_wellStamped (w : World) :
  wellStamped w -> wellStamped (processQueue w).
Proof.
  unfold processQueue.
  destruct (processQueue_on_frame (st_queue (state w)) w) as (Hc & Ht & _).
  apply wellStamped_later; [exact Hc | exact Ht |].
  apply processQueue_on_incl. reflexivity.
Qed.

Lemma addToQueue_wellStamped (txt : string) (p : Priority) (w : World) :
  monotoneClock w -> wellStamped w -> wellStamped (addToQueue txt p w).
Proof.
  intros Hm Hw item Hin k Hk.
  rewrite addToQueue_queue in Hin. apply filter_In in Hin.
  destruct Hin as [Hin _]. apply (proj1 (sort_In _ _)) in Hin.
  change (clock (addToQueue txt p w)) with (clock w).
  change (ticks (addToQueue txt p w)) with (S (S (S (ticks w)))) in Hk.
  apply in_app_or in Hin. destruct Hin as [Hin | [<- | []]].
  - apply Hw; [exact Hin | lia].
  - cbn. apply Hm. lia.
Qed.

Lemma step_frame (w : World) (e : Event) :
  clock (step w e) = clock w /\ (ticks w <= ticks (step w e))%nat.
Proof.
  assert (Hpq : forall v, clock (processQueue v) = clock v
                          /\ (ticks v <= ticks (processQueue v))%nat).
  { intros v. unfold processQueue.
    destruct (processQueue_on_frame (st_queue (state v)) v) as (Hc & Ht & _).
    split; assumption. }
  assert (Hspn : clock (speakNormal (match e with CallSpeakNormal t => t
                                              | _ => EmptyString end) w)
                 = clock w
                 /\ (ticks w <= ticks (speakNormal
                        (match e with CallSpeakNormal t => t
                                 | _ => EmptyString end) w))%nat).
  { destruct (Z_lt_dec (clock w (ticks w) - lastAnnouncementTime w)
                       MIN_ANNOUNCEMENT_GAP) as [Hgap | Hgap].
    - rewrite speakNormal_throttled by exact Hgap. cbn. split; [reflexivity|lia].
    - rewrite speakNormal_accepted by exact Hgap.
      destruct (Hpq (addToQueue (match e with CallSpeakNormal t => t
                                         | _ => EmptyString end)
                                normal (snd (Date_now w)))) as [Hc Ht].
      rewrite Hc. cbn in *. split; [reflexivity | lia]. }
  destruct e; cbn [step];
    try (cbn; split; [reflexivity | lia]);
    try exact Hspn.
  - unfold speakHigh. destruct (Hpq (addToQueue txt high w)) as [Hc Ht].
    rewrite Hc. cbn in *. split; [reflexivity | lia].
  - unfold speakLow. destruct (Hpq (addToQueue txt low w)) as [Hc Ht].
    rewrite Hc. cbn in *. split; [reflexivity | lia].
  - unfold resume. destruct (Hpq (set_isPaused false w)) as [Hc Ht].
    rewrite Hc. cbn in *. split; [reflexivity | lia].
  - unfold timerFires. destruct (timers w) as [|n].
    + split; [reflexivity | lia].
    + destruct (Hpq (set_timers n w)) as [Hc Ht].
      rewrite Hc. cbn in *. split; [reflexivity | lia].
Qed.

Lemma step_wellStamped (w : World) (e : Event) :
  monotoneClock w -> wellStamped w -> wellStamped (step w e).
Proof.
  intros Hm Hw.
  assert (Hsame : forall v, clock v = clock w -> (ticks w <= ticks v)%nat ->
                            st_queue (state v) = st_queue (state w) ->
                            wellStamped v).
  { intros v Hc Ht Hq. apply (wellStamped_later w); try assumption.
    rewrite Hq. apply incl_refl. }
  destruct e; cbn [step].
  - apply processQueue_wellStamped, addToQueue_wellStamped; assumption.
  - destruct (Z_lt_dec (clock w (ticks w) - lastAnnouncementTime w)
                       MIN_ANNOUNCEMENT_GAP) as [Hgap | Hgap].
    + rewrite speakNormal_throttled by exact Hgap.
      apply Hsame; cbn; [reflexivity | lia | reflexivity].
    + rewrite speakNormal_accepted by exact Hgap.
      apply processQueue_wellStamped, addToQueue_wellStamped.
      * exact Hm.
      * apply Hsame; cbn; [reflexivity | lia | reflexivity].
  - apply processQueue_wellStamped, addToQueue_wellStamped; assumption.
  - apply Hsame; cbn; [reflexivity | lia | reflexivity].
  - apply processQueue_wellStamped.
    apply Hsame; cbn; [reflexivity | lia | reflexivity].
  - intros item Hin. cbn in Hin. contradiction.
  - apply Hsame; cbn; [reflexivity | lia | reflexivity].
  - apply Hsame; cbn; [reflexivity | lia | reflexivity].
  - apply Hsame; cbn; [reflexivity | lia | reflexivity].
  - apply Hsame; cbn; [reflexivity | lia | reflexivity].
  - apply Hsame; cbn; [reflexivity | lia | reflexivity].
  - unfold timerFires. destruct (timers w) as [|n]; [exact Hw|].
    apply processQueue_wellStamped.
    apply Hsame; cbn; [reflexivity | lia | reflexivity].
Qed.

Lemma run_wellStamped (evs : list Event) :
  forall w, monotoneClock w -> wellStamped w ->
            clock (run evs w) = clock w /\ wellStamped (run evs w).
Proof.
  induction evs as [|e evs IH]; intros w Hm Hw; [split; [reflexivity|exact Hw]|].
  change (run (e :: evs) w) with (run evs (step w e)).
  destruct (step_frame w e) as [Hc _].
  destruct (IH (step w e)) as [Hc' Hw'].
  - unfold monotoneClock. rewrite Hc. exact Hm.
  - apply step_wellStamped; assumption.
  - split; [congruence | exact Hw'].
Qed.

(** ** Stability: a new item goes behind its equals *)

Lemma Priority_eqb_eq (p q : Priority) : Priority_eqb p q = true <-> p = q.
Proof.
  destruct p, q; cbn; split; intros H; try reflexivity; try discriminate.
Qed.

Lemma filter_filter_comm (f g : SpeechQueueItem -> bool)
      (l : list SpeechQueueItem) :
  filter f (filter g l) = filter g (filter f l).
Proof.
  induction l as [|x l IH]; cbn; [reflexivity|].
  destruct (f x) eqn:Ef, (g x) eqn:Eg; cbn; rewrite ?Ef, ?Eg, IH; reflexivity.
Qed.

(** Inserting [y] among items none of which is an older equal of [y]
    leaves [y] first among the items of its priority. *)
Lemma filter_sort_insert_front (pr : Priority) (y : SpeechQueueItem)
      (s : list SpeechQueueItem) :
  (forall z, In z s -> priority z = priority y -> timestamp y <= timestamp z) ->
  filter (hasPriority pr) (sort_insert y s)
  = filter (hasPriority pr) [y] ++ filter (hasPriority pr) s.
Proof.
  induction s as [|z s IH]; intros H.
  - cbn. rewrite app_nil_r. reflexivity.
  - cbn [sort_insert]. destruct (compareItems y z >? 0) eqn:E.
    + apply compareItems_gt in E. destruct E as [_ Hts].
      cbn [filter]. rewrite IH by (intros v Hv; apply H; right; exact Hv).
      destruct (hasPriority pr z) eqn:Ez; [|reflexivity].
      cbn [filter]. destruct (hasPriority pr y) eqn:Ey; [|reflexivity].
      exfalso. unfold hasPriority in Ez, Ey.
      apply Priority_eqb_eq in Ez, Ey.
      assert (Hzy : priority z = priority y) by congruence.
      specialize (H z (or_introl eq_refl) Hzy).
      specialize (Hts (eq_sym Hzy)). lia.
    + change (y :: z :: s) with ([y] ++ z :: s).
      apply filter_app.
Qed.

(** Sorting a sorted queue with one item pushed at its end: within each
    priority the old order stands and the new item comes last, provided
    the new item is not older than the queued items of its priority. *)
Lemma filter_sort_push (pr : Priority) (x : SpeechQueueItem)
      (q : list SpeechQueueItem) :
  StronglySorted queueOrder q ->
  (forall y, In y q -> priority y = priority x -> timestamp y <= timestamp x) ->
  filter (hasPriority pr) (sort (q ++ [x]))
  = filter (hasPriority pr) (q ++ [x]).
Proof.
  induction 1 as [|y q Hs IH Hy]; intros Hx.
  - reflexivity.
  - change (sort ((y :: q) ++ [x])) with (sort_insert y (sort (q ++ [x]))).
    rewrite filter_sort_insert_front.
    + rewrite IH by (intros v Hv; apply Hx; right; exact Hv).
      cbn. destruct (hasPriority pr y); reflexivity.
    + intros z Hz Hp. apply (proj1 (sort_In _ _)) in Hz.
      apply in_app_or in Hz. destruct Hz as [Hz | [<- | []]].
      * rewrite Forall_forall in Hy. specialize (Hy z Hz).
        unfold queueOrder in Hy. rewrite Hp in Hy. lia.
      * apply Hx; [left; reflexivity | symmetry; exact Hp].
Qed.

(** C3.  Start from any state whose queue is in order (the fresh service
    is one) and let anything happen except a critical interruption:
    [speakHigh], [speakNormal], [speakLow] in any number and order, mixed
    with pause, resume, stop, settings, engine callbacks and timers.
    Then the queue is sorted by priority rank, highest first, and by
    timestamp, oldest first, within a rank: an item of higher rank stands
    strictly before every item of lower rank, and of two items of the same
    priority the earlier one is not younger.  Moreover, when the clock
    never goes back, a further [addToQueue] puts the new item behind all
    queued items of its priority and leaves the order of the others as it
    was (up to what the sweep removes): submission order is kept. *)
Theorem enqueue_keeps_priority_then_age_order (evs : list Event) (w : World) :
  StronglySorted queueOrder (st_queue (state w)) ->
  let w' := run evs w in
  let q := st_queue (state w') in
  StronglySorted queueOrder q
  /\ (forall i j a b,
        nth_error q i = Some a -> nth_error q j = Some b ->
        getPriorityValue (priority b) < getPriorityValue (priority a) ->
        (i < j)%nat)
  /\ (forall i j a b,
        nth_error q i = Some a -> nth_error q j = Some b ->
        priority a = priority b -> (i < j)%nat ->
        timestamp a <= timestamp b)
  /\ (monotoneClock w -> wellStamped w ->
      forall txt p pr,
        filter (hasPriority pr) (st_queue (state (addToQueue txt p w')))
        = filter (withinTimeout (clock w' (S (S (ticks w')))))
                 (filter (hasPriority pr) (q ++ [newItem txt p w']))).
Proof.
  intros Hs. cbv zeta.
  pose proof (run_sorted evs w Hs) as Hq.
  split; [exact Hq|].
  split; [|split].
  - intros i j a b Hi Hj Hrank.
    destruct (lt_eq_lt_dec i j) as [[Hlt | Heq] | Hgt].
    + exact Hlt.
    + subst j. rewrite Hi in Hj. injection Hj as <-. lia.
    + pose proof (sorted_nth_error _ Hq j i b a Hj Hi Hgt) as Ho.
      unfold queueOrder in Ho. lia.
  - intros i j a b Hi Hj Hp Hlt.
    pose proof (sorted_nth_error _ Hq i j a b Hi Hj Hlt) as Ho.
    unfold queueOrder in Ho. rewrite Hp in Ho. lia.
  - intros Hm Hw txt p pr.
    destruct (run_wellStamped evs w Hm Hw) as [Hc Hw'].
    rewrite addToQueue_queue, filter_filter_comm.
    rewrite filter_sort_push; [reflexivity | exact Hq |].
    intros y Hy _. cbn. apply Hw'; [exact Hy | lia].
Qed.

Lemma enqueue_keeps_priority_then_age_order_witness :
  let evs := [CallSpeakLow "x"%string; CallSpeakHigh "y"%string;
              CallSpeakLow "z"%string] in
  let w' := run evs (pause freshWorld) in
  StronglySorted queueOrder (st_queue (state w'))
  /\ map text (st_queue (state w')) = ["y"%string; "x"%string; "z"%string]
  /\ map text (filter (hasPriority low)
                      (st_queue (state (addToQueue "v"%string low w'))))
     = ["x"%string; "z"%string; "v"%string].
Proof.
  cbv zeta.
  assert (Hs : StronglySorted queueOrder (st_queue (state (pause freshWorld))))
    by (cbn; constructor).
  assert (Hm : monotoneClock (pause freshWorld))
    by (intros i j _; cbn; unfold frozenClock; lia).
  assert (Hw : wellStamped (pause freshWorld))
    by (intros item Hin; cbn in Hin; contradiction).
  destruct (enqueue_keeps_priority_then_age_order
              [CallSpeakLow "x"%string; CallSpeakHigh "y"%string;
               CallSpeakLow "z"%string]
              (pause freshWorld) Hs) as (Hq & _ & _ & Hfifo).
  split; [exact Hq|].
  split; [reflexivity|].
  rewrite (Hfifo Hm Hw). reflexivity.
Defined.

(** ** Acceptance *)

Lemma processQueue_on_accepts (q : list SpeechQueueItem) :
  forall (w : World) (x : SpeechQueueItem),
    st_queue (state w) = q ->
    In x q ->
    (forall k : nat, (ticks w <= k < ticks (processQueue_on q w))%nat ->
                     expiredAtPop (clock w k) x = false) ->
    In x (st_queue (state (processQueue_on q w)))
    \/ engine (processQueue_on q w) = engine w ++ [speakCall (text x) w].
Proof.
  induction q as [|item rest IH]; intros w x Hq Hin Hfresh.
  - contradiction.
  - destruct (st_isPaused (state w)) eqn:Hp.
    { left. rewrite processQueue_on_paused by exact Hp.
      rewrite Hq. exact Hin. }
    destruct (st_isSpeaking (state w)) eqn:Hsp.
    { left. rewrite processQueue_on_speaking by exact Hsp.
      rewrite Hq. exact Hin. }
    rewrite processQueue_on_idle_cons in * by assumption.
    cbv zeta in *.
    set (w2 := snd (Date_now (set_queue rest w))) in *.
    destruct (expiredAtPop (clock w (ticks w)) item) eqn:E.
    + destruct (processQueue_on_frame rest w2) as (_ & Ht & _).
      assert (Ht2 : ticks w2 = S (ticks w)) by reflexivity.
      destruct Hin as [-> | Hin].
      * rewrite Hfresh in E; [discriminate | lia].
      * destruct (IH w2 x eq_refl Hin) as [Hl | Hr].
        -- intros k Hk. apply Hfresh. lia.
        -- left. exact Hl.
        -- right. exact Hr.
    + destruct Hin as [-> | Hin].
      * right. reflexivity.
      * left. exact Hin.
Qed.

(** An item enqueued by [addToQueue] and then offered to [processQueue] is
    taken up when the call is prompt. *)
Lemma enqueue_accepts (txt : string) (p : Priority) (w : World) :
  promptCall (newItem txt p w) w (processQueue (addToQueue txt p w)) ->
  accepted (newItem txt p w) w (processQueue (addToQueue txt p w)).
Proof.
  intros Hprompt. unfold promptCall in Hprompt.
  set (x := newItem txt p w) in *.
  set (wa := addToQueue txt p w) in *.
  assert (Hta : ticks wa = S (S (S (ticks w)))) by reflexivity.
  assert (Hca : clock wa = clock w) by reflexivity.
  destruct (processQueue_on_frame (st_queue (state wa)) wa) as (_ & Ht & _).
  fold (processQueue wa) in Ht.
  assert (Hin : In x (st_queue (state wa))).
  { subst wa. rewrite addToQueue_queue. apply filter_In. split.
    - apply sort_In, in_or_app. right. left. reflexivity.
    - unfold withinTimeout. apply Z.ltb_lt.
      apply Hprompt. lia. }
  destruct (processQueue_on_accepts (st_queue (state wa)) wa x eq_refl Hin)
    as [Hl | Hr].
  - intros k Hk. fold (processQueue wa) in Hk.
    unfold expiredAtPop.
    replace (_ >? _) with false; [reflexivity|].
    symmetry. rewrite Z.gtb_ltb. apply Z.ltb_ge.
    rewrite Hca. specialize (Hprompt k). lia.
  - left. exact Hl.
  - right. fold (processQueue wa) in Hr.
    rewrite (spokenSince_app w (processQueue wa) [speakCall (text x) wa]).
    + left. reflexivity.
    + exact Hr.
Qed.

(** [processQueue] and [addToQueue] never read [lastAnnouncementTime]. *)
Lemma processQueue_on_ignores_last (t : Z) (q : list SpeechQueueItem) :
  forall w,
    processQueue_on q (set_lastAnnouncementTime t w)
    = set_lastAnnouncementTime t (processQueue_on q w).
Proof.
  induction q as [|item rest IH]; intros w.
  - cbn. rewrite orb_true_r. reflexivity.
  - cbn [processQueue_on].
    change (state (set_lastAnnouncementTime t w)) with (state w).
    destruct (st_isPaused (state w) || st_isSpeaking (state w)
              || (Z.of_nat (List.length (item :: rest)) =? 0));
      [reflexivity|].
    cbn [Date_now fst snd].
    change (clock (set_queue rest (set_lastAnnouncementTime t w))
                  (ticks (set_queue rest (set_lastAnnouncementTime t w))))
      with (clock w (ticks w)).
    change (clock (set_queue rest w) (ticks (set_queue rest w)))
      with (clock w (ticks w)).
    destruct (expiredAtPop (clock w (ticks w)) item); [|reflexivity].
    apply (IH (snd (Date_now (set_queue rest w)))).
Qed.

Lemma enqueue_ignores_last (t : Z) (txt : string) (p : Priority) (w : World) :
  processQueue (addToQueue txt p (set_lastAnnouncementTime t w))
  = set_lastAnnouncementTime t (processQueue (addToQueue txt p w)).
Proof.
  unfold processQueue.
  apply (processQueue_on_ignores_last t _ (addToQueue txt p w)).
Qed.

Lemma speakImmediate_ignores_last (t : Z) (txt : string) (w : World) :
  speakImmediate txt (set_lastAnnouncementTime t w)
  = set_lastAnnouncementTime t (speakImmediate txt w).
Proof.
  destruct (st_isPaused (state w)) eqn:Hp.
  - rewrite !speakImmediate_paused by exact Hp. reflexivity.
  - rewrite !speakImmediate_running by exact Hp. reflexivity.
Qed.

Lemma speakImmediate_accepts (txt : string) (w : World) :
  accepted (newItem txt critical w) w (speakImmediate txt w).
Proof.
  destruct (st_isPaused (state w)) eqn:Hp.
  - left. rewrite speakImmediate_paused by exact Hp. left. reflexivity.
  - right. rewrite speakImmediate_running by exact Hp.
    rewrite (spokenSince_app w _ [EngineStop; speakCall txt w]).
    + left. reflexivity.
    + cbn [engine]. rewrite <- app_assoc. reflexivity.
Qed.

(** C4.  [speakNormal] drops its text, leaving the world as it was but for
    the one clock reading, when that reading is less than
    [MIN_ANNOUNCEMENT_GAP] after [lastAnnouncementTime]; otherwise it takes
    the text up: the item is queued or goes to the engine (given that the
    call itself does not outlast the item's timeout).  [speakHigh],
    [speakLow] and [speakImmediate] take their text up whatever
    [lastAnnouncementTime] is, and their effect does not depend on it.
    [speak] without a priority is [speakNormal]. *)
Theorem throttle_gates_only_normal (w : World) (txt : string) :
  (clock w (ticks w) - lastAnnouncementTime w < MIN_ANNOUNCEMENT_GAP ->
   speakNormal txt w = snd (Date_now w))
  /\ (~ clock w (ticks w) - lastAnnouncementTime w < MIN_ANNOUNCEMENT_GAP ->
      promptCall (newItem txt normal (snd (Date_now w))) w (speakNormal txt w) ->
      accepted (newItem txt normal (snd (Date_now w))) w (speakNormal txt w))
  /\ (promptCall (newItem txt high w) w (speakHigh txt w) ->
      accepted (newItem txt high w) w (speakHigh txt w))
  /\ (promptCall (newItem txt low w) w (speakLow txt w) ->
      accepted (newItem txt low w) w (speakLow txt w))
  /\ accepted (newItem txt critical w) w (speakImmediate txt w)
  /\ speak txt None w = speakNormal txt w
  /\ (forall t,
        speakHigh txt (set_lastAnnouncementTime t w)
        = set_lastAnnouncementTime t (speakHigh txt w))
  /\ (forall t,
        speakLow txt (set_lastAnnouncementTime t w)
        = set_lastAnnouncementTime t (speakLow txt w))
  /\ (forall t,
        speakImmediate txt (set_lastAnnouncementTime t w)
        = set_lastAnnouncementTime t (speakImmediate txt w)).
Proof.
  split; [apply speakNormal_throttled|].
  split.
  { intros Hgap. rewrite speakNormal_accepted by exact Hgap.
    set (w1 := snd (Date_now w)).
    intros Hprompt.
    destruct (enqueue_accepts txt normal w1) as [Hl | Hr].
    - intros k Hk. apply (Hprompt k).
      change (ticks w1) with (S (ticks w)) in Hk. lia.
    - left. exact Hl.
    - right. exact Hr. }
  split; [apply enqueue_accepts|].
  split; [apply enqueue_accepts|].
  split; [apply speakImmediate_accepts|].
  split; [reflexivity|].
  split; [intros t; apply enqueue_ignores_last|].
  split; [intros t; apply enqueue_ignores_last|].
  intros t. apply speakImmediate_ignores_last.
Qed.

Lemma throttle_gates_only_normal_witness :
  let busy := speakNormal "A"%string freshWorld in
  let done := onDone busy in
  (* dropped: made 0 ms after the last playback finished *)
  speakNormal "B"%string done = snd (Date_now done)
  (* taken up: the fresh service has never spoken *)
  /\ accepted (newItem "A"%string normal (snd (Date_now freshWorld)))
              freshWorld busy
  (* high is taken up right after a playback finished *)
  /\ accepted (newItem "C"%string high done) done (speakHigh "C"%string done).
Proof.
  cbv zeta.
  pose proof (throttle_gates_only_normal
                (onDone (speakNormal "A"%string freshWorld)) "B"%string)
    as (Hdrop & _).
  pose proof (throttle_gates_only_normal freshWorld "A"%string)
    as (_ & Htake & _).
  pose proof (throttle_gates_only_normal
                (onDone (speakNormal "A"%string freshWorld)) "C"%string)
    as (_ & _ & Hhigh & _).
  split; [|split].
  - apply Hdrop. vm_compute. reflexivity.
  - apply Htake.
    + vm_compute. discriminate.
    + intros k Hk. vm_compute. reflexivity.
  - apply Hhigh. intros k Hk. vm_compute. reflexivity.
Defined.

(** ** Empty text *)

Lemma sort_insert_untext (x : SpeechQueueItem) (l : list SpeechQueueItem) :
  map untext (sort_insert x l) = sort_insert (untext x) (map untext l).
Proof.
  induction l as [|y l IH]; [reflexivity|].
  cbn [sort_insert map].
  change (compareItems (untext x) (untext y)) with (compareItems x y).
  destruct (compareItems x y >? 0); cbn [map]; rewrite ?IH; reflexivity.
Qed.

Lemma sort_untext (l : list SpeechQueueItem) :
  map untext (sort l) = sort (map untext l).
Proof.
  induction l as [|x l IH]; [reflexivity|].
  cbn [sort fold_right map]. fold (sort l). fold (sort (map untext l)).
  rewrite sort_insert_untext, IH. reflexivity.
Qed.

Lemma filter_untext (f : SpeechQueueItem -> bool) (l : list SpeechQueueItem) :
  (forall x, f (untext x) = f x) ->
  map untext (filter f l) = filter f (map untext l).
Proof.
  intros Hf. induction l as [|x l IH]; [reflexivity|].
  cbn. rewrite Hf. destruct (f x); cbn; rewrite IH; reflexivity.
Qed.

Lemma addToQueue_eraseTexts (txt : string) (p : Priority) (w : World) :
  eraseTexts (addToQueue txt p w) = addToQueue EmptyString p (eraseTexts w).
Proof.
  unfold eraseTexts at 1. rewrite addToQueue_queue.
  rewrite filter_untext by reflexivity.
  rewrite sort_untext, map_app. reflexivity.
Qed.

Lemma processQueue_on_eraseTexts (q : list SpeechQueueItem) :
  forall w,
    eraseTexts (processQueue_on q w)
    = processQueue_on (map untext q) (eraseTexts w).
Proof.
  induction q as [|item rest IH]; intros w.
  - cbn. rewrite !orb_true_r. reflexivity.
  - cbn [processQueue_on map].
    change (state (eraseTexts w)) with
      (mkState (st_isSpeaking (state w)) (map untext (st_queue (state w)))
               (st_currentLanguage (state w)) (st_speechRate (state w))
               (st_isPaused (state w))).
    cbn [st_isPaused st_isSpeaking].
    replace (List.length (untext item :: map untext rest))
      with (List.length (item :: rest)) by (cbn; rewrite length_map; reflexivity).
    destruct (st_isPaused (state w) || st_isSpeaking (state w)
              || (Z.of_nat (List.length (item :: rest)) =? 0));
      [reflexivity|].
    cbn [Date_now].
    change (expiredAtPop (clock (set_queue (map untext rest) (eraseTexts w))
                                (ticks (set_queue (map untext rest) (eraseTexts w))))
                         (untext item))
      with (expiredAtPop (clock w (ticks w)) item).
    change (clock (set_queue rest w) (ticks (set_queue rest w)))
      with (clock w (ticks w)).
    destruct (expiredAtPop (clock w (ticks w)) item).
    + apply (IH (snd (Date_now (set_queue rest w)))).
    + unfold speakItem, eraseTexts. cbn. rewrite map_app. reflexivity.
Qed.

Lemma processQueue_eraseTexts (w : World) :
  eraseTexts (processQueue w) = processQueue (eraseTexts w).
Proof.
  unfold processQueue. apply processQueue_on_eraseTexts.
Qed.

Lemma speakImmediate_eraseTexts (txt : string) (w : World) :
  eraseTexts (speakImmediate txt w) = speakImmediate EmptyString (eraseTexts w).
Proof.
  unfold speakImmediate. cbn [generateId Date_now Math_random].
  rewrite processQueue_eraseTexts. f_equal.
  unfold eraseTexts. cbn.
  rewrite map_app, filter_untext by reflexivity. reflexivity.
Qed.

Lemma speakNormal_eraseTexts (txt : string) (w : World) :
  eraseTexts (speakNormal txt w) = speakNormal EmptyString (eraseTexts w).
Proof.
  unfold speakNormal. cbn [Date_now].
  change (clock (eraseTexts w) (ticks (eraseTexts w))) with (clock w (ticks w)).
  cbn [lastAnnouncementTime eraseTexts].
  destruct (clock w (ticks w) - lastAnnouncementTime w <? MIN_ANNOUNCEMENT_GAP);
    [reflexivity|].
  rewrite processQueue_eraseTexts, addToQueue_eraseTexts. reflexivity.
Qed.

Lemma speak_eraseTexts (txt : string) (p : option Priority) (w : World) :
  eraseTexts (speak txt p w) = speak EmptyString p (eraseTexts w).
Proof.
  destruct p as [[| | |]|]; cbn [speak].
  - apply speakImmediate_eraseTexts.
  - unfold speakHigh. rewrite processQueue_eraseTexts, addToQueue_eraseTexts.
    reflexivity.
  - apply speakNormal_eraseTexts.
  - unfold speakLow. rewrite processQueue_eraseTexts, addToQueue_eraseTexts.
    reflexivity.
  - apply speakNormal_eraseTexts.
Qed.

Lemma spokenTexts_muteCall (calls : list EngineCall) :
  spokenTexts (map muteCall calls)
  = map (fun _ => EmptyString) (spokenTexts calls).
Proof.
  induction calls as [|c calls IH]; [reflexivity|].
  destruct c; cbn; rewrite IH; reflexivity.
Qed.

Lemma spokenSince_count (w w' : World) :
  List.length (spokenSince w w')
  = List.length (spokenTexts (skipn (List.length (engine w))
                                    (engine (eraseTexts w')))).
Proof.
  unfold spokenSince. cbn [engine eraseTexts].
  rewrite skipn_map, spokenTexts_muteCall, length_map. reflexivity.
Qed.

(** C5 (as stated, refuted).  Called with the empty string in the paused
    service, each of [speakImmediate], [speakHigh], [speakNormal],
    [speakLow] and [speak] adds an item to the queue; called in the idle
    service, [speak] hands the empty string to the engine. *)
Lemma emptyTextIgnored_fails :
  ~ emptyTextIgnored speakImmediate (pause freshWorld)
  /\ ~ emptyTextIgnored speakHigh (pause freshWorld)
  /\ ~ emptyTextIgnored speakNormal (pause freshWorld)
  /\ ~ emptyTextIgnored speakLow (pause freshWorld)
  /\ ~ emptyTextIgnored (fun txt => speak txt None) (pause freshWorld)
  /\ ~ emptyTextIgnored (fun txt => speak txt None) freshWorld.
Proof.
  repeat split; intros (Hq & Hlen & Hsp);
    first [ vm_compute in Hq; discriminate Hq
          | vm_compute in Hsp; discriminate Hsp ].
Qed.

(** C5 (amended).  No submission operation looks at the text: with the
    empty string [speak] does exactly what it does with any other text of
    the same priority, texts apart.  The two resulting worlds agree on the
    queue (length, ids, priorities, timestamps), on both playback flags, on
    the throttle state, and on the engine calls made; so an empty
    submission is queued, throttled or started under the same rules as a
    non-empty one.  ([speakImmediate], [speakHigh], [speakNormal] and
    [speakLow] are [speak] at the four priorities.) *)
Theorem empty_text_treated_like_any_text
        (w : World) (p : option Priority) (txt : string) :
  let w0 := speak EmptyString p w in
  let w1 := speak txt p w in
  eraseTexts w0 = eraseTexts w1
  /\ getQueueLength w0 = getQueueLength w1
  /\ map priority (st_queue (state w0)) = map priority (st_queue (state w1))
  /\ isSpeaking w0 = isSpeaking w1
  /\ List.length (spokenSince w w0) = List.length (spokenSince w w1)
  /\ speak txt (Some critical) w = speakImmediate txt w
  /\ speak txt (Some high) w = speakHigh txt w
  /\ speak txt (Some normal) w = speakNormal txt w
  /\ speak txt (Some low) w = speakLow txt w.
Proof.
  cbv zeta.
  assert (E : eraseTexts (speak EmptyString p w) = eraseTexts (speak txt p w)).
  { rewrite !speak_eraseTexts. reflexivity. }
  split; [exact E|].
  split.
  { unfold getQueueLength.
    rewrite <- (length_map untext (st_queue (state (speak EmptyString p w)))).
    rewrite <- (length_map untext (st_queue (state (speak txt p w)))).
    change (map untext (st_queue (state ?v)))
      with (st_queue (state (eraseTexts v))).
    rewrite E. reflexivity. }
  split.
  { assert (H : forall v, map priority (st_queue (state v))
                          = map priority (st_queue (state (eraseTexts v)))).
    { intros v. cbn. rewrite map_map. reflexivity. }
    rewrite (H (speak EmptyString p w)), (H (speak txt p w)), E. reflexivity. }
  split.
  { change (isSpeaking (speak EmptyString p w))
      with (isSpeaking (eraseTexts (speak EmptyString p w))).
    rewrite E. reflexivity. }
  split.
  { rewrite !spokenSince_count, E. reflexivity. }
  repeat split.
Qed.

(* ================================================================== *)
(** * Further properties of the speech service *)

(** ** What one run of [processQueue] can do *)

(** Either [processQueue] hands nothing to the engine and leaves the
    speaking flag alone (and then, if the service was idle, the queue is
    empty afterwards), or the service was idle, a run of expired items was
    discarded, and the item behind them went to the engine. *)
Lemma processQueue_on_outcome (q : list SpeechQueueItem) :
  forall w,
    st_queue (state w) = q ->
    (engine (processQueue_on q w) = engine w
     /\ st_isSpeaking (state (processQueue_on q w)) = st_isSpeaking (state w)
     /\ (idle w -> st_queue (state (processQueue_on q w)) = []))
    \/ (exists pre x post,
           q = pre ++ x :: post
           /\ idle w
           /\ engine (processQueue_on q w) = engine w ++ [speakCall (text x) w]
           /\ st_isSpeaking (state (processQueue_on q w)) = true
           /\ st_queue (state (processQueue_on q w)) = post).
Proof.
  induction q as [|item rest IH]; intros w Hq.
  - left. cbn. rewrite orb_true_r. repeat split. intros _. exact Hq.
  - destruct (st_isPaused (state w)) eqn:Hp.
    { left. rewrite processQueue_on_paused by exact Hp.
      repeat split. intros [Hp' _]. congruence. }
    destruct (st_isSpeaking (state w)) eqn:Hsp.
    { left. rewrite processQueue_on_speaking by exact Hsp.
      repeat split; [exact Hsp|]. intros [_ Hs']. congruence. }
    rewrite processQueue_on_idle_cons by assumption. cbv zeta.
    set (w2 := snd (Date_now (set_queue rest w))).
    destruct (expiredAtPop (clock w (ticks w)) item).
    + destruct (IH w2 eq_refl) as [(He & Hs & Hempty) | (pre & x & post & Hsplit & _ & He & Hs & Hpost)].
      * left. rewrite He, Hs. repeat split; [exact Hsp|].
        intros _. apply Hempty. split; assumption.
      * right. exists (item :: pre), x, post.
        split; [rewrite Hsplit; reflexivity|]. split; [split; assumption|].
        split; [exact He|]. split; [exact Hs | exact Hpost].
    + right. exists [], item, rest.
      repeat split; first [assumption | reflexivity].
Qed.

(** X1.  No call and no event makes the service hand more than one text to
    the engine, and when one is handed over the speaking flag is set; while
    the flag is set, no call or event of [Event] hands over another: the
    service does not talk over itself.  ([speakImmediate], which is not an
    [Event], stops the engine first and then behaves the same way.) *)
Theorem one_utterance_at_a_time (w : World) (e : Event) :
  (spokenSince w (step w e) = []
   \/ exists txt, spokenSince w (step w e) = [txt]
                  /\ isSpeaking (step w e) = true)
  /\ (isSpeaking w = true -> spokenSince w (step w e) = [])
  /\ (forall txt,
        spokenSince w (speakImmediate txt w) = []
        \/ (spokenSince w (speakImmediate txt w) = [txt]
            /\ isSpeaking (speakImmediate txt w) = true)).
Proof.
  assert (Hsilent : forall v, engine v = engine w ->
            st_isSpeaking (state v) = true ->
            spokenSince w (processQueue v) = []).
  { intros v Hv Hs. unfold processQueue.
    rewrite processQueue_on_speaking by exact Hs.
    apply spokenSince_same, Hv. }
  assert (Hlift : forall v, engine v = engine w ->
            spokenSince w (processQueue v) = []
            \/ exists txt, spokenSince w (processQueue v) = [txt]
                           /\ isSpeaking (processQueue v) = true).
  { intros v Hv. unfold processQueue.
    destruct (processQueue_on_outcome (st_queue (state v)) v eq_refl)
      as [(He & _) | (pre & x & post & _ & _ & He & Hs & _)].
    - left. apply spokenSince_same. congruence.
    - right. exists (text x). split; [|exact Hs].
      apply (spokenSince_app w _ [speakCall (text x) v]). congruence. }
  split; [|split].
  - destruct e; cbn [step];
      try (left; apply spokenSince_same; reflexivity).
    + apply Hlift. reflexivity.
    + destruct (Z_lt_dec (clock w (ticks w) - lastAnnouncementTime w)
                         MIN_ANNOUNCEMENT_GAP) as [Hgap | Hgap].
      * rewrite speakNormal_throttled by exact Hgap.
        left. apply spokenSince_same. reflexivity.
      * rewrite speakNormal_accepted by exact Hgap. apply Hlift. reflexivity.
    + apply Hlift. reflexivity.
    + left. apply (spokenSince_app w (pause w) [EngineStop]). reflexivity.
    + apply Hlift. reflexivity.
    + left. apply (spokenSince_app w (stop w) [EngineStop]). reflexivity.
    + unfold timerFires. destruct (timers w) as [|n].
      * left. apply spokenSince_same. reflexivity.
      * apply Hlift. reflexivity.
  - unfold isSpeaking. intros Hs.
    destruct e; cbn [step]; try (apply spokenSince_same; reflexivity).
    + apply Hsilent; [reflexivity | exact Hs].
    + destruct (Z_lt_dec (clock w (ticks w) - lastAnnouncementTime w)
                         MIN_ANNOUNCEMENT_GAP) as [Hgap | Hgap].
      * rewrite speakNormal_throttled by exact Hgap.
        apply spokenSince_same. reflexivity.
      * rewrite speakNormal_accepted by exact Hgap.
        apply Hsilent; [reflexivity | exact Hs].
    + apply Hsilent; [reflexivity | exact Hs].
    + apply (spokenSince_app w (pause w) [EngineStop]). reflexivity.
    + apply Hsilent; [reflexivity | exact Hs].
    + apply (spokenSince_app w (stop w) [EngineStop]). reflexivity.
    + unfold timerFires. destruct (timers w) as [|n].
      * apply spokenSince_same. reflexivity.
      * apply Hsilent; [reflexivity | exact Hs].
  - intros txt. destruct (st_isPaused (state w)) eqn:Hp.
    + left. rewrite speakImmediate_paused by exact Hp.
      apply (spokenSince_app w _ [EngineStop]). reflexivity.
    + right. rewrite speakImmediate_running by exact Hp. split; [|reflexivity].
      apply (spokenSince_app w _ [EngineStop; speakCall txt w]).
      cbn [engine]. rewrite <- app_assoc. reflexivity.
Qed.

Lemma one_utterance_at_a_time_witness :
  spokenSince busyWorld (step busyWorld (CallSpeakLow "Bench"%string)) = [].
Proof.
  destruct (one_utterance_at_a_time busyWorld (CallSpeakLow "Bench"%string))
    as (_ & Hquiet & _).
  apply Hquiet. reflexivity.
Defined.

(** X2.  On an idle service [processQueue] never leaves work behind: it
    either starts exactly one utterance, taken from the queue, or it ends
    with the queue empty and nothing started. *)
Theorem processQueue_idle_speaks_or_empties (w : World) :
  idle w ->
  (exists x, In x (st_queue (state w))
             /\ spokenSince w (processQueue w) = [text x]
             /\ isSpeaking (processQueue w) = true)
  \/ (st_queue (state (processQueue w)) = []
      /\ spokenSince w (processQueue w) = []
      /\ isSpeaking (processQueue w) = false).
Proof.
  intros Hidle. unfold processQueue, isSpeaking.
  destruct (processQueue_on_outcome (st_queue (state w)) w eq_refl)
    as [(He & Hs & Hempty) | (pre & x & post & Hsplit & _ & He & Hs & _)].
  - right. split; [apply Hempty, Hidle|].
    split; [apply spokenSince_same, He|].
    rewrite Hs. apply Hidle.
  - left. exists x. split; [|split].
    + rewrite Hsplit. apply in_or_app. right. left. reflexivity.
    + apply (spokenSince_app w _ [speakCall (text x) w]). exact He.
    + exact Hs.
Qed.

Lemma processQueue_idle_speaks_or_empties_witness :
  spokenSince (set_isPaused false pausedWithHigh)
              (processQueue (set_isPaused false pausedWithHigh))
  = ["Door ahead"%string]
  \/ st_queue (state (processQueue (set_isPaused false pausedWithHigh))) = [].
Proof.
  destruct (processQueue_idle_speaks_or_empties
              (set_isPaused false pausedWithHigh) (conj eq_refl eq_refl))
    as [(x & Hin & Hsp & _) | (Hq & _)].
  - left. vm_compute in Hin. destruct Hin as [<- | []]. exact Hsp.
  - right. exact Hq.
Defined.

(** X3.  The utterance started by [processQueue] on an idle service is the
    first queued item that is not expired at the clock reading taken for
    it: the items before it, each expired at its own reading, are
    discarded without being spoken, and the items behind it stay queued. *)
Theorem processQueue_speaks_first_unexpired
        (pre : list SpeechQueueItem) (x : SpeechQueueItem)
        (post : list SpeechQueueItem) :
  forall w,
    idle w ->
    st_queue (state w) = pre ++ x :: post ->
    (forall i y, nth_error pre i = Some y ->
                 expiredAtPop (clock w (ticks w + i)) y = true) ->
    expiredAtPop (clock w (ticks w + List.length pre)) x = false ->
    engine (processQueue w) = engine w ++ [speakCall (text x) w]
    /\ spokenSince w (processQueue w) = [text x]
    /\ st_queue (state (processQueue w)) = post
    /\ isSpeaking (processQueue w) = true
    /\ ticks (processQueue w) = (ticks w + List.length pre + 1)%nat.
Proof.
  intros w Hidle Hq Hpre Hx.
  assert (H : engine (processQueue w) = engine w ++ [speakCall (text x) w]
              /\ st_queue (state (processQueue w)) = post
              /\ isSpeaking (processQueue w) = true
              /\ ticks (processQueue w) = (ticks w + List.length pre + 1)%nat).
  { unfold processQueue, isSpeaking. rewrite Hq. clear Hq.
    revert w Hidle Hpre Hx.
    induction pre as [|y pre IH]; intros w [Hp Hs] Hpre Hx.
    - cbn [app List.length] in *. rewrite Nat.add_0_r in Hx.
      rewrite processQueue_on_idle_cons by assumption. cbv zeta.
      rewrite Hx. cbn. repeat split. lia.
    - cbn [app].
      rewrite processQueue_on_idle_cons by assumption. cbv zeta.
      pose proof (Hpre 0%nat y eq_refl) as Hy. rewrite Nat.add_0_r in Hy.
      rewrite Hy.
      set (w2 := snd (Date_now (set_queue (pre ++ x :: post) w))).
      destruct (IH w2) as (He & Hpost & Hsp & Ht).
      + split; assumption.
      + intros i z Hz. specialize (Hpre (S i) z Hz).
        replace (ticks w2 + i)%nat with (ticks w + S i)%nat
          by (subst w2; cbn; lia).
        exact Hpre.
      + replace (ticks w2 + List.length pre)%nat
          with (ticks w + List.length (y :: pre))%nat
          by (subst w2; cbn; lia).
        exact Hx.
      + split; [exact He|]. split; [exact Hpost|]. split; [exact Hsp|].
        rewrite Ht. subst w2. cbn. lia. }
  destruct H as (He & Hpost & Hsp & Ht).
  split; [exact He|].
  split; [apply (spokenSince_app w _ [speakCall (text x) w]); exact He|].
  split; [exact Hpost|]. split; [exact Hsp | exact Ht].
Qed.

Lemma processQueue_speaks_first_unexpired_witness :
  spokenSince idleWithHighAndLow (processQueue idleWithHighAndLow)
  = ["Bench"%string]
  /\ st_queue (state (processQueue idleWithHighAndLow)) = [].
Proof.
  destruct (processQueue_speaks_first_unexpired
              [mkItem (mkItemId 0 7) "Door ahead"%string high 0]
              (mkItem (mkItemId 0 7) "Bench"%string low 0)
              [] idleWithHighAndLow) as (_ & Hsp & Hq & _).
  - split; reflexivity.
  - reflexivity.
  - intros [|i] y Hy; cbn in Hy.
    + injection Hy as <-. reflexivity.
    + destruct i; discriminate Hy.
  - reflexivity.
  - split; [exact Hsp | exact Hq].
Defined.

(** X4.  Only a finished playback moves the reference time of the throttle:
    [lastAnnouncementTime] becomes the clock reading at [onDone] and is
    left alone by every other call and event, an engine error and a
    critical interruption included. *)
Theorem only_onDone_moves_lastAnnouncementTime (w : World) (e : Event) :
  lastAnnouncementTime (step w EngineDone) = clock w (ticks w)
  /\ (e <> EngineDone ->
      lastAnnouncementTime (step w e) = lastAnnouncementTime w)
  /\ (forall txt,
        lastAnnouncementTime (speakImmediate txt w) = lastAnnouncementTime w).
Proof.
  assert (Hpq : forall v, lastAnnouncementTime (processQueue v)
                          = lastAnnouncementTime v).
  { intros v. unfold processQueue.
    apply (processQueue_on_frame (st_queue (state v)) v). }
  split; [reflexivity|]. split.
  - intros He. destruct e; cbn [step].
    + unfold speakHigh. rewrite Hpq. reflexivity.
    + destruct (Z_lt_dec (clock w (ticks w) - lastAnnouncementTime w)
                         MIN_ANNOUNCEMENT_GAP) as [Hgap | Hgap].
      * rewrite speakNormal_throttled by exact Hgap. reflexivity.
      * rewrite speakNormal_accepted by exact Hgap. rewrite Hpq. reflexivity.
    + unfold speakLow. rewrite Hpq. reflexivity.
    + reflexivity.
    + unfold resume. rewrite Hpq. reflexivity.
    + reflexivity.
    + reflexivity.
    + reflexivity.
    + congruence.
    + reflexivity.
    + reflexivity.
    + unfold timerFires. destruct (timers w); [reflexivity|].
      rewrite Hpq. reflexivity.
  - intros txt. destruct (st_isPaused (state w)) eqn:Hp.
    + rewrite speakImmediate_paused by exact Hp. reflexivity.
    + rewrite speakImmediate_running by exact Hp. reflexivity.
Qed.

Lemma only_onDone_moves_lastAnnouncementTime_witness :
  lastAnnouncementTime (step busyWorld EngineError)
  = lastAnnouncementTime busyWorld.
Proof.
  destruct (only_onDone_moves_lastAnnouncementTime busyWorld EngineError)
    as (_ & H & _).
  apply H. discriminate.
Defined.

(** ** Queue length *)

Lemma sort_insert_length (x : SpeechQueueItem) (l : list SpeechQueueItem) :
  List.length (sort_insert x l) = S (List.length l).
Proof.
  induction l as [|y l IH]; [reflexivity|].
  cbn [sort_insert]. destruct (compareItems x y >? 0); cbn; [rewrite IH|];
    reflexivity.
Qed.

Lemma sort_length (l : list SpeechQueueItem) :
  List.length (sort l) = List.length l.
Proof.
  induction l as [|x l IH]; [reflexivity|].
  change (sort (x :: l)) with (sort_insert x (sort l)).
  rewrite sort_insert_length, IH. reflexivity.
Qed.

Lemma addToQueue_length (txt : string) (p : Priority) (w : World) :
  getQueueLength (addToQueue txt p w) <= getQueueLength w + 1.
Proof.
  unfold getQueueLength. rewrite addToQueue_queue.
  pose proof (filter_length_le
                (withinTimeout (clock w (S (S (ticks w)))))
                (sort (st_queue (state w) ++ [newItem txt p w]))) as H.
  rewrite sort_length, length_app in H. cbn in H. lia.
Qed.

Lemma processQueue_length (w : World) :
  getQueueLength (processQueue w) <= getQueueLength w.
Proof.
  unfold getQueueLength, processQueue.
  destruct (processQueue_on_suffix (st_queue (state w)) w eq_refl) as [pre H].
  rewrite H at 2. rewrite length_app. lia.
Qed.

(** X5.  The queue grows only through submissions, and by at most one item
    per submission: after [speakHigh], [speakNormal], [speakLow] or
    [speakImmediate] the queue is at most one item longer, and after any
    other call or event it is not longer than before. *)
Theorem queue_grows_by_submissions_only (w : World) (e : Event) :
  getQueueLength (step w e) <= getQueueLength w + 1
  /\ (isSubmission e = false -> getQueueLength (step w e) <= getQueueLength w)
  /\ (forall txt, getQueueLength (speakImmediate txt w) <= getQueueLength w + 1).
Proof.
  assert (Henq : forall txt p v,
             getQueueLength v = getQueueLength w ->
             getQueueLength (processQueue (addToQueue txt p v))
             <= getQueueLength w + 1).
  { intros txt p v Hv.
    pose proof (processQueue_length (addToQueue txt p v)).
    pose proof (addToQueue_length txt p v). lia. }
  assert (Hnormal : forall txt,
             getQueueLength (speakNormal txt w) <= getQueueLength w + 1).
  { intros txt.
    destruct (Z_lt_dec (clock w (ticks w) - lastAnnouncementTime w)
                       MIN_ANNOUNCEMENT_GAP) as [Hgap | Hgap].
    - rewrite speakNormal_throttled by exact Hgap.
      unfold getQueueLength. cbn. lia.
    - rewrite speakNormal_accepted by exact Hgap. apply Henq. reflexivity. }
  assert (Hrest : isSubmission e = false ->
                  getQueueLength (step w e) <= getQueueLength w).
  { intros Hsub. destruct e; cbn [step]; try discriminate Hsub.
    - unfold getQueueLength. cbn. lia.
    - unfold resume.
      pose proof (processQueue_length (set_isPaused false w)) as H. exact H.
    - unfold getQueueLength. cbn. lia.
    - unfold getQueueLength. cbn. lia.
    - unfold getQueueLength. cbn. lia.
    - unfold getQueueLength. cbn. lia.
    - unfold getQueueLength. cbn. lia.
    - unfold getQueueLength. cbn. lia.
    - unfold timerFires. destruct (timers w) as [|n]; [lia|].
      pose proof (processQueue_length (set_timers n w)) as H. exact H. }
  split; [|split].
  - destruct (isSubmission e) eqn:Hsub.
    + destruct e; try discriminate Hsub; cbn [step].
      * apply Henq. reflexivity.
      * apply Hnormal.
      * apply Henq. reflexivity.
    + specialize (Hrest eq_refl). lia.
  - exact Hrest.
  - intros txt.
    pose proof (filter_length_le isCritical (st_queue (state w))) as Hf.
    unfold getQueueLength.
    destruct (st_isPaused (state w)) eqn:Hp.
    + rewrite speakImmediate_paused by exact Hp. cbn [state st_queue List.length].
      lia.
    + rewrite speakImmediate_running by exact Hp. cbn [state st_queue]. lia.
Qed.

Lemma queue_grows_by_submissions_only_witness :
  getQueueLength (step pausedWithCritical CallResume)
  <= getQueueLength pausedWithCritical.
Proof.
  destruct (queue_grows_by_submissions_only pausedWithCritical CallResume)
    as (_ & H & _).
  apply H. reflexivity.
Defined.

(** ** After stop *)

Lemma processQueue_empty (w : World) :
  st_queue (state w) = [] -> processQueue w = w.
Proof.
  intros Hq. unfold processQueue. rewrite Hq. cbn.
  rewrite orb_true_r. reflexivity.
Qed.

Lemma step_on_empty_queue (w : World) (e : Event) :
  st_queue (state w) = [] ->
  isSubmission e = false ->
  st_queue (state (step w e)) = []
  /\ exists calls, engine (step w e) = engine w ++ calls
                   /\ spokenTexts calls = [].
Proof.
  intros Hq Hsub.
  assert (Hsame : forall v, st_queue (state v) = [] -> engine v = engine w ->
                            st_queue (state v) = []
                            /\ exists calls, engine v = engine w ++ calls
                                             /\ spokenTexts calls = []).
  { intros v Hv He. split; [exact Hv|]. exists [].
    rewrite app_nil_r. split; [exact He | reflexivity]. }
  destruct e; cbn [step]; try discriminate Hsub.
  - split; [exact Hq|]. exists [EngineStop]. split; reflexivity.
  - unfold resume. rewrite processQueue_empty by exact Hq.
    apply Hsame; [exact Hq | reflexivity].
  - split; [reflexivity|]. exists [EngineStop]. split; reflexivity.
  - apply Hsame; [exact Hq | reflexivity].
  - apply Hsame; [exact Hq | reflexivity].
  - apply Hsame; [exact Hq | reflexivity].
  - apply Hsame; [exact Hq | reflexivity].
  - apply Hsame; [exact Hq | reflexivity].
  - unfold timerFires. destruct (timers w) as [|n].
    + apply Hsame; [exact Hq | reflexivity].
    + rewrite processQueue_empty by exact Hq.
      apply Hsame; [exact Hq | reflexivity].
Qed.

(** X6.  After [stop] the service stays silent until something is
    submitted: whatever playback controls, settings, engine callbacks and
    pending timers follow, in any number and order, nothing is handed to
    the engine and the queue stays empty. *)
Theorem stop_silences_until_next_submission (w : World) (evs : list Event) :
  forallb (fun e => negb (isSubmission e)) evs = true ->
  spokenSince (stop w) (run evs (stop w)) = []
  /\ st_queue (state (run evs (stop w))) = [].
Proof.
  intros Hevs.
  assert (H : forall v, st_queue (state v) = [] ->
                st_queue (state (run evs v)) = []
                /\ exists calls, engine (run evs v) = engine v ++ calls
                                 /\ spokenTexts calls = []).
  { induction evs as [|e evs IH]; intros v Hv.
    - split; [exact Hv|]. exists []. rewrite app_nil_r. split; reflexivity.
    - cbn [forallb] in Hevs. apply andb_prop in Hevs. destruct Hevs as [He Hevs].
      apply negb_true_iff in He.
      change (run (e :: evs) v) with (run evs (step v e)).
      destruct (step_on_empty_queue v e Hv He) as (Hq1 & calls1 & He1 & Hs1).
      destruct (IH Hevs (step v e) Hq1) as (Hq2 & calls2 & He2 & Hs2).
      split; [exact Hq2|]. exists (calls1 ++ calls2).
      rewrite He2, He1, <- app_assoc. split; [reflexivity|].
      rewrite spokenTexts_app, Hs1, Hs2. reflexivity. }
  destruct (H (stop w) eq_refl) as (Hq & calls & He & Hs).
  split; [|exact Hq].
  rewrite (spokenSince_app (stop w) _ calls He). exact Hs.
Qed.

Lemma stop_silences_until_next_submission_witness :
  spokenSince (stop busyWorld)
              (run [EngineStopped; TimerFires; CallResume; EngineDone; TimerFires]
                   (stop busyWorld)) = [].
Proof.
  apply (stop_silences_until_next_submission busyWorld
           [EngineStopped; TimerFires; CallResume; EngineDone; TimerFires]).
  reflexivity.
Defined.

(** ** Pause and resume *)

(** X7.  [pause] followed by [resume] moves on to the head of the queue:
    whatever was playing when [pause] was called is stopped and is not
    started again; the head item, if its age is within its timeout, is
    handed to the engine and the rest of the queue stays queued. *)
Theorem pause_resume_moves_on (w : World) (x : SpeechQueueItem)
        (rest : list SpeechQueueItem) :
  st_queue (state w) = x :: rest ->
  clock w (ticks w) - timestamp x <= PRIORITY_TIMEOUT (priority x) ->
  let w' := resume (pause w) in
  st_queue (state (pause w)) = x :: rest
  /\ engine w' = engine w ++ [EngineStop; speakCall (text x) w]
  /\ spokenSince w w' = [text x]
  /\ st_queue (state w') = rest
  /\ isSpeaking w' = true
  /\ st_isPaused (state w') = false.
Proof.
  intros Hq Hage. cbv zeta.
  assert (E : resume (pause w)
              = speakItem x (snd (Date_now (set_queue rest
                  (set_isPaused false (pause w)))))).
  { unfold resume, processQueue.
    change (st_queue (state (set_isPaused false (pause w))))
      with (st_queue (state w)).
    rewrite Hq.
    apply processQueue_speaks_head_up_to_timeout; [reflexivity | reflexivity |].
    exact Hage. }
  rewrite E. unfold isSpeaking. cbn [pause Speech_stop].
  split; [exact Hq|].
  split; [cbn; rewrite <- app_assoc; reflexivity|].
  split.
  { apply (spokenSince_app w _ [EngineStop; speakCall (text x) w]).
    cbn. rewrite <- app_assoc. reflexivity. }
  repeat split.
Qed.

Lemma pause_resume_moves_on_witness :
  spokenSince (speakLow "Bench"%string busyWorld)
              (resume (pause (speakLow "Bench"%string busyWorld)))
  = ["Bench"%string].
Proof.
  destruct (pause_resume_moves_on
              (speakLow "Bench"%string busyWorld)
              (newItem "Bench"%string low busyWorld) [])
    as (_ & _ & H & _).
  - reflexivity.
  - vm_compute. discriminate.
  - exact H.
Defined.

(* ================================================================== *)
(** * The store *)

Lemma dispatch_photos_bound (s : AppStore.AppState) (a : AppStore.Action) :
  (List.length (AppStore.photos s) <= 100)%nat ->
  (List.length (AppStore.photos (AppStore.dispatch s a)) <= 100)%nat.
Proof.
  intros Hs. destruct a; cbn [AppStore.dispatch]; try exact Hs.
  - unfold AppStore.addPhoto. cbn [AppStore.photos AppStore.setPhotos].
    apply firstn_le_length.
  - unfold AppStore.removePhoto. cbn [AppStore.photos AppStore.setPhotos].
    pose proof (filter_length_le
                  (fun p => negb (String.eqb (AppStore.id p) i))
                  (AppStore.photos s)). lia.
  - cbn. lia.
Qed.

Lemma addPhoto_photos (photo : AppStore.Photo) (s : AppStore.AppState) :
  AppStore.photos (AppStore.addPhoto photo s)
  = photo :: firstn 99 (AppStore.photos s).
Proof. reflexivity. Qed.

Lemma filter_other_ids_noop (i : string) (l : list AppStore.Photo) :
  (forall p, In p l -> AppStore.id p <> i) ->
  filter (fun p => negb (String.eqb (AppStore.id p) i)) l = l.
Proof.
  induction l as [|p l IH]; intros H; [reflexivity|].
  cbn. destruct (String.eqb_spec (AppStore.id p) i) as [E | E].
  - exfalso. apply (H p); [left; reflexivity | exact E].
  - cbn. f_equal. apply IH. intros q Hq. apply H. right. exact Hq.
Qed.

Lemma setPhotos_same (s : AppStore.AppState) :
  AppStore.setPhotos (AppStore.photos s) s = s.
Proof. destruct s; reflexivity. Qed.

(** X8.  The gallery never holds more than 100 photos: whatever actions
    are dispatched to the store, in any number and order, a gallery of at
    most 100 photos (the initial one is empty) stays at most 100 long. *)
Theorem gallery_holds_at_most_100 (actions : list AppStore.Action)
        (s : AppStore.AppState) :
  (List.length (AppStore.photos s) <= 100)%nat ->
  (List.length (AppStore.photos (AppStore.dispatchAll actions s)) <= 100)%nat.
Proof.
  revert s. induction actions as [|a actions IH]; intros s Hs; [exact Hs|].
  change (AppStore.dispatchAll (a :: actions) s)
    with (AppStore.dispatchAll actions (AppStore.dispatch s a)).
  apply IH, dispatch_photos_bound, Hs.
Qed.

Lemma gallery_holds_at_most_100_witness :
  (List.length
     (AppStore.photos
        (AppStore.dispatchAll
           [AppStore.AddPhoto
              (AppStore.mkPhoto "photo-1"%string "file:a"%string
                                "A door"%string 1 None);
            AppStore.SetPaused true;
            AppStore.RemovePhoto "photo-2"%string]
           AppStore.initial)) <= 100)%nat.
Proof.
  apply gallery_holds_at_most_100. cbn. lia.
Defined.

(** X9.  [addPhoto] puts the new photo first.  While the gallery holds
    fewer than 100 photos nothing is lost; when it holds 100, exactly the
    last (oldest) photo is dropped and the others keep their order. *)
Theorem addPhoto_newest_first_evicts_oldest
        (photo : AppStore.Photo) (s : AppStore.AppState) :
  let after := AppStore.photos (AppStore.addPhoto photo s) in
  hd_error after = Some photo
  /\ List.length after = Nat.min 100 (S (List.length (AppStore.photos s)))
  /\ ((List.length (AppStore.photos s) < 100)%nat ->
      after = photo :: AppStore.photos s)
  /\ (List.length (AppStore.photos s) = 100%nat ->
      after = photo :: removelast (AppStore.photos s)).
Proof.
  cbv zeta. rewrite addPhoto_photos.
  split; [reflexivity|]. split; [|split].
  - cbn [List.length]. rewrite length_firstn. lia.
  - intros Hlt. f_equal. apply firstn_all2. lia.
  - intros Hfull. f_equal. rewrite removelast_firstn_len, Hfull. reflexivity.
Qed.

Lemma addPhoto_newest_first_evicts_oldest_witness :
  AppStore.photos
    (AppStore.addPhoto
       (AppStore.mkPhoto "photo-2"%string "file:b"%string "A bench"%string 2 None)
       (AppStore.addPhoto
          (AppStore.mkPhoto "photo-1"%string "file:a"%string "A door"%string 1 None)
          AppStore.initial))
  = [AppStore.mkPhoto "photo-2"%string "file:b"%string "A bench"%string 2 None;
     AppStore.mkPhoto "photo-1"%string "file:a"%string "A door"%string 1 None].
Proof.
  apply (addPhoto_newest_first_evicts_oldest
           (AppStore.mkPhoto "photo-2"%string "file:b"%string "A bench"%string 2 None)
           (AppStore.addPhoto
              (AppStore.mkPhoto "photo-1"%string "file:a"%string
                                "A door"%string 1 None)
              AppStore.initial)).
  cbn. lia.
Defined.

(** X10.  [removePhoto id] removes every photo that carries [id] (two
    photos taken in the same millisecond share one) and no other; with an
    id that no photo carries it changes nothing, and doing it twice is the
    same as doing it once. *)
Theorem removePhoto_removes_exactly_that_id (i : string) (s : AppStore.AppState) :
  (forall p, In p (AppStore.photos (AppStore.removePhoto i s))
             <-> In p (AppStore.photos s) /\ AppStore.id p <> i)
  /\ (~ In i (map AppStore.id (AppStore.photos s)) ->
      AppStore.removePhoto i s = s)
  /\ AppStore.removePhoto i (AppStore.removePhoto i s) = AppStore.removePhoto i s.
Proof.
  assert (Hin : forall p, In p (AppStore.photos (AppStore.removePhoto i s))
                          <-> In p (AppStore.photos s) /\ AppStore.id p <> i).
  { intros p. cbn. rewrite filter_In.
    destruct (String.eqb_spec (AppStore.id p) i) as [E | E]; cbn;
      intuition congruence. }
  split; [exact Hin|]. split.
  - intros Hfresh. unfold AppStore.removePhoto. rewrite filter_other_ids_noop.
    + apply setPhotos_same.
    + intros p Hp E. apply Hfresh. rewrite <- E. apply in_map, Hp.
  - unfold AppStore.removePhoto at 1.
    rewrite filter_other_ids_noop; [apply setPhotos_same|].
    intros p Hp. apply Hin in Hp. apply Hp.
Qed.

Lemma removePhoto_removes_exactly_that_id_witness :
  AppStore.removePhoto "photo-7"%string AppStore.initial = AppStore.initial.
Proof.
  destruct (removePhoto_removes_exactly_that_id "photo-7"%string AppStore.initial)
    as (_ & Hnoop & _).
  apply Hnoop. cbn. intros [].
Defined.

(** X11.  Adding a photo and removing it again gives the store back as it
    was, provided the photo's id is new and the gallery was not full
    (when it is full the oldest photo is gone for good). *)
Theorem addPhoto_then_removePhoto_restores
        (photo : AppStore.Photo) (s : AppStore.AppState) :
  ~ In (AppStore.id photo) (map AppStore.id (AppStore.photos s)) ->
  (List.length (AppStore.photos s) < 100)%nat ->
  AppStore.removePhoto (AppStore.id photo) (AppStore.addPhoto photo s) = s.
Proof.
  intros Hfresh Hlt.
  unfold AppStore.removePhoto. rewrite addPhoto_photos.
  rewrite firstn_all2 by lia.
  cbn [filter]. rewrite String.eqb_refl. cbn [negb].
  rewrite filter_other_ids_noop.
  - destruct s; reflexivity.
  - intros p Hp E. apply Hfresh. rewrite <- E. apply in_map, Hp.
Qed.

Lemma addPhoto_then_removePhoto_restores_witness :
  AppStore.removePhoto "photo-1"%string
    (AppStore.addPhoto
       (AppStore.mkPhoto "photo-1"%string "file:a"%string "A door"%string 1 None)
       AppStore.initial)
  = AppStore.initial.
Proof.
  apply (addPhoto_then_removePhoto_restores
           (AppStore.mkPhoto "photo-1"%string "file:a"%string "A door"%string 1 None)
           AppStore.initial).
  - cbn. intros [].
  - cbn. lia.
Defined.

(* ================================================================== *)
(** * The Gemini service *)

Section GeminiFacts.

Variable parseGeminiResponse : string -> option Scene.GeminiResponse.
Variable trim : string -> string.

Lemma canMakeRequest_spec (s : Gemini.Limiter) :
  let now := Gemini.clock s (Gemini.ticks s) in
  let windowPassed := now - Gemini.lastRequestTime s >? Gemini.RATE_LIMIT_WINDOW in
  Gemini.canMakeRequest s
  = ((if windowPassed then 0 else Gemini.requestCount s) <? 13,
     Gemini.mkLimiter (Gemini.lastRequestTime s)
                      (if windowPassed then 0 else Gemini.requestCount s)
                      (Gemini.clock s) (S (Gemini.ticks s))).
Proof.
  cbv zeta. unfold Gemini.canMakeRequest. cbn.
  destruct (_ >? _); reflexivity.
Qed.

(** X12.  The limiter lets a request through exactly when
    [getRateLimitStatus] reports a request remaining or more than
    [RATE_LIMIT_WINDOW] ms have passed since the last counted request.
    The reported numbers are within bounds ([remaining] between 0 and 13,
    [resetsIn] between 0 and the window), [resetsIn] is 0 exactly from
    60000 ms on, and asking for the status changes neither counter. *)
Theorem status_agrees_with_permission (s : Gemini.Limiter) :
  let now := Gemini.clock s (Gemini.ticks s) in
  let remaining := fst (fst (Gemini.getRateLimitStatus s)) in
  let resetsIn := snd (fst (Gemini.getRateLimitStatus s)) in
  (fst (Gemini.canMakeRequest s) = true
   <-> 0 < remaining \/ Gemini.RATE_LIMIT_WINDOW < now - Gemini.lastRequestTime s)
  /\ 0 <= remaining
  /\ (0 <= Gemini.requestCount s -> remaining <= 13)
  /\ 0 <= resetsIn
  /\ (Gemini.lastRequestTime s <= now -> resetsIn <= Gemini.RATE_LIMIT_WINDOW)
  /\ (resetsIn = 0 <-> Gemini.RATE_LIMIT_WINDOW <= now - Gemini.lastRequestTime s)
  /\ Gemini.lastRequestTime (snd (Gemini.getRateLimitStatus s))
     = Gemini.lastRequestTime s
  /\ Gemini.requestCount (snd (Gemini.getRateLimitStatus s))
     = Gemini.requestCount s.
Proof.
  cbv zeta. rewrite canMakeRequest_spec. cbv zeta.
  unfold Gemini.getRateLimitStatus, Gemini.RATE_LIMIT_WINDOW,
    Gemini.MAX_REQUESTS_PER_MINUTE, Gemini.GEMINI_RPM.
  cbn [fst snd Gemini.Date_now Gemini.lastRequestTime Gemini.requestCount].
  set (now := Gemini.clock s (Gemini.ticks s)).
  set (last := Gemini.lastRequestTime s).
  set (n := Gemini.requestCount s).
  split.
  { destruct (Z.gtb_spec (now - last) 60000) as [Hw | Hw].
    - split; [intros _; right; lia | reflexivity].
    - rewrite Z.ltb_lt. lia. }
  repeat split; lia.
Qed.

Lemma status_agrees_with_permission_witness :
  fst (Gemini.canMakeRequest (Gemini.initial (fun _ => 1000))) = true.
Proof.
  apply (status_agrees_with_permission (Gemini.initial (fun _ => 1000))).
  left. reflexivity.
Defined.

Lemma countRequest_spec (s : Gemini.Limiter) :
  Gemini.countRequest s
  = Gemini.mkLimiter (Gemini.clock s (Gemini.ticks s))
                     (Gemini.requestCount s + 1)
                     (Gemini.clock s) (S (Gemini.ticks s)).
Proof. reflexivity. Qed.

Lemma toSceneDescription_limiter (r : Scene.GeminiResponse) (s : Gemini.Limiter) :
  snd (Gemini.toSceneDescription r s) = snd (Gemini.Date_now s).
Proof. reflexivity. Qed.

Lemma perform_count_bound (s : Gemini.Limiter) (c : Gemini.Call) :
  0 <= Gemini.requestCount s <= 13 ->
  0 <= Gemini.requestCount
         (Gemini.perform parseGeminiResponse trim s c) <= 13.
Proof.
  intros Hs.
  destruct c as [o | o |]; cbn [Gemini.perform].
  - unfold Gemini.analyzeImage. rewrite canMakeRequest_spec. cbv zeta.
    set (n := if _ >? _ then 0 else Gemini.requestCount s).
    assert (Hn : 0 <= n <= 13) by (subst n; destruct (_ >? _); lia).
    destruct (Z.ltb_spec n 13) as [Hlt | Hge]; cbn [negb].
    + destruct o as [| | t]; cbn; [lia | lia |].
      destruct (parseGeminiResponse t); cbn; lia.
    + cbn. lia.
  - unfold Gemini.describePhoto. rewrite canMakeRequest_spec. cbv zeta.
    set (n := if _ >? _ then 0 else Gemini.requestCount s).
    assert (Hn : 0 <= n <= 13) by (subst n; destruct (_ >? _); lia).
    destruct (Z.ltb_spec n 13) as [Hlt | Hge]; cbn [negb].
    + destruct o as [| | t]; cbn; lia.
    + cbn. lia.
  - cbn. exact Hs.
Qed.

(** X13.  Calls that do not overlap never take the counter out of range:
    whatever [analyzeImage], [describePhoto] and [getRateLimitStatus]
    calls are made one after the other, with whatever outcomes and at
    whatever times, [requestCount] stays between 0 and
    [MAX_REQUESTS_PER_MINUTE] = 13. *)
Theorem requestCount_stays_in_range (calls : list Gemini.Call)
        (s : Gemini.Limiter) :
  0 <= Gemini.requestCount s <= 13 ->
  0 <= Gemini.requestCount
         (Gemini.performAll parseGeminiResponse trim calls s) <= 13.
Proof.
  revert s. induction calls as [|c calls IH]; intros s Hs; [exact Hs|].
  change (Gemini.performAll parseGeminiResponse trim (c :: calls) s)
    with (Gemini.performAll parseGeminiResponse trim calls
            (Gemini.perform parseGeminiResponse trim s c)).
  apply IH, perform_count_bound, Hs.
Qed.

(** X14.  Once 13 requests are counted, every further request made up to
    and including 60000 ms after the last counted one is refused
    ([analyzeImage] returns null, [describePhoto] the rate-limit message),
    and a refused request leaves both counters as they were, so it does
    not prolong the block.  A request made later than that is let
    through; if the model answers, the counter restarts at 1 and
    [lastRequestTime] is the time of the answer. *)
Theorem limiter_blocks_until_window_after_last_request
        (s : Gemini.Limiter) (o : Gemini.Outcome) :
  let now := Gemini.clock s (Gemini.ticks s) in
  (13 <= Gemini.requestCount s ->
   now - Gemini.lastRequestTime s <= Gemini.RATE_LIMIT_WINDOW ->
   Gemini.analyzeImage parseGeminiResponse o s = (None, snd (Gemini.Date_now s))
   /\ Gemini.describePhoto trim o s
      = ("Photo saved. Description not available due to rate limiting."%string,
         snd (Gemini.Date_now s)))
  /\ (Gemini.RATE_LIMIT_WINDOW < now - Gemini.lastRequestTime s ->
      o <> Gemini.Rejected ->
      let after := snd (Gemini.analyzeImage parseGeminiResponse o s) in
      Gemini.requestCount after = 1
      /\ Gemini.lastRequestTime after = Gemini.clock s (S (Gemini.ticks s))
      /\ Gemini.requestCount (snd (Gemini.describePhoto trim o s)) = 1).
Proof.
  cbv zeta. split.
  - intros Hfull Hwin.
    unfold Gemini.analyzeImage, Gemini.describePhoto.
    rewrite canMakeRequest_spec. cbv zeta.
    replace (_ >? _) with false
      by (symmetry; rewrite Z.gtb_ltb; apply Z.ltb_ge; exact Hwin).
    replace (Gemini.requestCount s <? 13) with false
      by (symmetry; apply Z.ltb_ge; exact Hfull).
    cbn [negb]. destruct s; split; reflexivity.
  - intros Hwin Ho.
    unfold Gemini.analyzeImage, Gemini.describePhoto.
    rewrite canMakeRequest_spec. cbv zeta.
    replace (_ >? _) with true by (symmetry; apply Z.gtb_lt; exact Hwin).
    cbn [Z.ltb Z.compare negb].
    destruct o as [| | t]; [congruence | |].
    + cbn. repeat split.
    + destruct (parseGeminiResponse t); cbn; repeat split.
Qed.

End GeminiFacts.

Lemma requestCount_stays_in_range_witness :
  0 <= Gemini.requestCount
         (Gemini.performAll (fun _ => None) (fun t => t)
            [Gemini.CallAnalyzeImage (Gemini.Text "{}"%string);
             Gemini.CallDescribePhoto Gemini.NoText;
             Gemini.CallGetRateLimitStatus]
            (Gemini.initial (fun _ => 1000))) <= 13.
Proof.
  apply requestCount_stays_in_range. cbn. lia.
Defined.

Lemma limiter_blocks_until_window_after_last_request_witness :
  Gemini.analyzeImage (fun _ => None) (Gemini.Text "{}"%string)
                      (Gemini.mkLimiter 5000 13 (fun _ => 65000) 0)
  = (None, Gemini.mkLimiter 5000 13 (fun _ => 65000) 1)
  /\ Gemini.requestCount
       (snd (Gemini.analyzeImage (fun _ => None) Gemini.NoText
               (Gemini.mkLimiter 5000 13 (fun _ => 65001) 0))) = 1.
Proof.
  split.
  - apply (limiter_blocks_until_window_after_last_request
             (fun _ => None) (fun t => t)
             (Gemini.mkLimiter 5000 13 (fun _ => 65000) 0)
             (Gemini.Text "{}"%string)).
    + cbn. lia.
    + cbn. unfold Gemini.RATE_LIMIT_WINDOW. lia.
  - apply (limiter_blocks_until_window_after_last_request
             (fun _ => None) (fun t => t)
             (Gemini.mkLimiter 5000 13 (fun _ => 65001) 0) Gemini.NoText).
    + cbn. unfold Gemini.RATE_LIMIT_WINDOW. lia.
    + discriminate.
Defined.

(** ** Scene conversion *)

Lemma ofIndex_inj (n m : nat) : JsString.ofIndex n = JsString.ofIndex m -> n = m.
Proof.
  unfold JsString.ofIndex. intros H.
  apply Unsigned.to_uint_inj.
  pose proof (NilEmpty.usu (Nat.to_uint n)) as Hn.
  pose proof (NilEmpty.usu (Nat.to_uint m)) as Hm.
  rewrite H in Hn. congruence.
Qed.

Lemma mapWithIndex_ids (objs : list Scene.GeminiObject) :
  forall index i,
    In i (map Scene.id (Gemini.mapWithIndex index objs)) ->
    exists j, (index <= j)%nat
              /\ i = String.append "obj-" (JsString.ofIndex j).
Proof.
  induction objs as [|obj objs IH]; intros index i Hin; [contradiction|].
  cbn in Hin. destruct Hin as [<- | Hin].
  - exists index. split; [lia | reflexivity].
  - destruct (IH (S index) i Hin) as (j & Hj & ->).
    exists j. split; [lia | reflexivity].
Qed.

Lemma mapWithIndex_NoDup (objs : list Scene.GeminiObject) :
  forall index, NoDup (map Scene.id (Gemini.mapWithIndex index objs)).
Proof.
  induction objs as [|obj objs IH]; intros index; [constructor|].
  cbn [Gemini.mapWithIndex map]. constructor; [|apply IH].
  intros Hin. destruct (mapWithIndex_ids objs (S index) _ Hin) as (j & Hj & E).
  cbn in E. injection E as E. apply ofIndex_inj in E. lia.
Qed.

Lemma mapWithIndex_labels (objs : list Scene.GeminiObject) :
  forall index,
    map Scene.label (Gemini.mapWithIndex index objs) = map Scene.name objs.
Proof.
  induction objs as [|obj objs IH]; intros index; [reflexivity|].
  cbn. rewrite IH. reflexivity.
Qed.

Lemma mapDistance_defined (d : string) : Gemini.mapDistance d <> None.
Proof.
  unfold Gemini.mapDistance. cbv zeta.
  repeat match goal with |- context [if ?b then _ else _] => destruct b end;
    discriminate.
Qed.

Lemma mapPosition_defined (p : string) : Gemini.mapPosition p <> None.
Proof.
  unfold Gemini.mapPosition. cbv zeta.
  repeat match goal with |- context [if ?b then _ else _] => destruct b end;
    discriminate.
Qed.

Lemma mapWithIndex_complete (objs : list Scene.GeminiObject) :
  forall index,
    Forall (fun d => Scene.distance d <> None /\ Scene.position d <> None)
           (Gemini.mapWithIndex index objs).
Proof.
  induction objs as [|obj objs IH]; intros index; constructor.
  - split; [apply mapDistance_defined | apply mapPosition_defined].
  - apply IH.
Qed.

(** X15.  [toSceneDescription] turns the objects of a response into
    detections one for one and in order, each labelled with the object's
    name; the ids it gives them ([obj-0], [obj-1], ...) are pairwise
    different; every detection gets a distance and a position, so a scene
    that comes from Gemini never has an object without them; summary,
    visible text and warnings are carried over and the timestamp is the
    clock reading. *)
Theorem toSceneDescription_keeps_objects (r : Scene.GeminiResponse)
        (s : Gemini.Limiter) :
  let sceneDescription := fst (Gemini.toSceneDescription r s) in
  map Scene.label (Scene.objects sceneDescription)
  = map Scene.name (Scene.g_objects r)
  /\ List.length (Scene.objects sceneDescription)
     = List.length (Scene.g_objects r)
  /\ NoDup (map Scene.id (Scene.objects sceneDescription))
  /\ Forall (fun d => Scene.distance d <> None /\ Scene.position d <> None)
            (Scene.objects sceneDescription)
  /\ Scene.summary sceneDescription = Scene.scene r
  /\ Scene.text sceneDescription = Some (Scene.text_visible r)
  /\ Scene.warnings sceneDescription = Some (Scene.g_warnings r)
  /\ Scene.timestamp sceneDescription = Gemini.clock s (Gemini.ticks s).
Proof.
  cbv zeta. cbn [Gemini.toSceneDescription Gemini.Date_now fst Scene.objects
                 Scene.summary Scene.text Scene.warnings Scene.timestamp].
  split; [apply mapWithIndex_labels|].
  split.
  { rewrite <- (length_map Scene.label), mapWithIndex_labels, length_map.
    reflexivity. }
  split; [apply mapWithIndex_NoDup|].
  split; [apply mapWithIndex_complete|].
  repeat split.
Qed.

(* ================================================================== *)
(** * Haptic patterns *)

Lemma pulse_is_one_call (t : Haptics.PatternType) :
  (if Haptics.isNotification t then Haptics.notify t else Haptics.impact t)
  = [Haptics.pulseOf t].
Proof. destruct t; reflexivity. Qed.

Lemma playLoop_closed (t : Haptics.PatternType) (n d : Z) :
  forall (rounds : nat) (i : Z),
    Z.of_nat rounds = n - i ->
    Haptics.playLoop rounds i n d t
    = match rounds with
      | O => []
      | S r => Haptics.pulseOf t
               :: List.concat (repeat [Haptics.Sleep d; Haptics.pulseOf t] r)
      end.
Proof.
  induction rounds as [|r IH]; intros i Hi; [reflexivity|].
  cbn [Haptics.playLoop]. rewrite pulse_is_one_call.
  rewrite IH by lia.
  destruct r as [|r'].
  - replace (i <? n - 1) with false by (symmetry; apply Z.ltb_ge; lia).
    reflexivity.
  - replace (i <? n - 1) with true by (symmetry; apply Z.ltb_lt; lia).
    reflexivity.
Qed.

(** X16.  [playPattern] makes [count] pulses, all of the pattern's type,
    with a pause of [interval] ms between two pulses and none after the
    last; a missing or zero [count] counts as 1 and a missing or zero
    [interval] as 100.  A negative [count] plays nothing. *)
Theorem playPattern_pulses_and_pauses (pattern : Haptics.HapticPattern) :
  let n := Haptics.orElse (Haptics.count pattern) 1 in
  let d := Haptics.orElse (Haptics.interval pattern) 100 in
  let pulse := Haptics.pulseOf (Haptics.type pattern) in
  n <> 0
  /\ (1 <= n ->
      Haptics.playPattern pattern
      = pulse :: List.concat (repeat [Haptics.Sleep d; pulse] (Z.to_nat (n - 1))))
  /\ (n < 0 -> Haptics.playPattern pattern = [])
  /\ (Haptics.count pattern = None \/ Haptics.count pattern = Some 0 ->
      Haptics.playPattern pattern = [pulse]).
Proof.
  cbv zeta. unfold Haptics.playPattern.
  set (n := Haptics.orElse (Haptics.count pattern) 1).
  set (d := Haptics.orElse (Haptics.interval pattern) 100).
  assert (Hn : n <> 0).
  { subst n. unfold Haptics.orElse.
    destruct (Haptics.count pattern) as [k|]; [|lia].
    destruct (Z.eqb_spec k 0); lia. }
  assert (Hpos : 1 <= n ->
                 Haptics.playLoop (Z.to_nat n) 0 n d (Haptics.type pattern)
                 = Haptics.pulseOf (Haptics.type pattern)
                   :: List.concat (repeat [Haptics.Sleep d;
                                      Haptics.pulseOf (Haptics.type pattern)]
                                     (Z.to_nat (n - 1)))).
  { intros H1. rewrite playLoop_closed by lia.
    replace (Z.to_nat n) with (S (Z.to_nat (n - 1))) by lia. reflexivity. }
  split; [exact Hn|]. split; [exact Hpos|]. split.
  - intros Hneg. replace (Z.to_nat n) with 0%nat by lia. reflexivity.
  - intros Hdefault.
    assert (H1 : n = 1).
    { subst n. destruct Hdefault as [-> | ->]; reflexivity. }
    rewrite Hpos by lia. rewrite H1. reflexivity.
Qed.

Lemma playPattern_pulses_and_pauses_witness :
  Haptics.playPattern Haptics.PATTERN_photoCapture
  = [Haptics.NotificationAsync Haptics.success; Haptics.Sleep 100;
     Haptics.NotificationAsync Haptics.success; Haptics.Sleep 100;
     Haptics.NotificationAsync Haptics.success]
  /\ Haptics.playPattern Haptics.PATTERN_cameraStop
     = [Haptics.ImpactAsync Haptics.light].
Proof.
  destruct (playPattern_pulses_and_pauses Haptics.PATTERN_photoCapture)
    as (_ & Hthree & _).
  destruct (playPattern_pulses_and_pauses Haptics.PATTERN_cameraStop)
    as (_ & _ & _ & Hone).
  split.
  - rewrite Hthree by (cbn; lia). reflexivity.
  - rewrite Hone by (left; reflexivity). reflexivity.
Defined.

(* ================================================================== *)
(** * Scene announcements *)

Lemma filter_isCritical_idem (q : list SpeechQueueItem) :
  filter isCritical (filter isCritical q) = filter isCritical q.
Proof.
  induction q as [|x q IH]; [reflexivity|].
  cbn. destruct (isCritical x) eqn:E; [|exact IH].
  cbn. rewrite E, IH. reflexivity.
Qed.

Lemma spokenTexts_interrupts (w : World) (ws : list string) :
  spokenTexts (flat_map (fun t => [EngineStop; speakCall t w]) ws) = ws.
Proof.
  induction ws as [|t ws IH]; [reflexivity|].
  cbn. rewrite IH. reflexivity.
Qed.

Lemma announceWarnings_running (ws : list string) :
  forall w acc,
    st_isPaused (state w) = false ->
    let r := fold_left CameraScreen.announceWarning ws (w, acc) in
    st_isPaused (state (fst r)) = false
    /\ engine (fst r)
       = engine w ++ flat_map (fun t => [EngineStop; speakCall t w]) ws
    /\ st_queue (state (fst r))
       = match ws with
         | [] => st_queue (state w)
         | _ => filter isCritical (st_queue (state w))
         end
    /\ (ws <> [] -> st_isSpeaking (state (fst r)) = true)
    /\ snd r = acc ++ repeat CameraScreen.RequestObstacleVeryClose
                             (List.length ws).
Proof.
  induction ws as [|t ws IH]; intros w acc Hp; cbv zeta.
  - cbn. rewrite !app_nil_r. repeat split; [exact Hp | congruence].
  - cbn [fold_left].
    change (CameraScreen.announceWarning (w, acc) t)
      with (speakImmediate t w, acc ++ [CameraScreen.RequestObstacleVeryClose]).
    rewrite speakImmediate_running by exact Hp.
    set (w1 := mkWorld _ _ _ _ _ _ _ _).
    destruct (IH w1 (acc ++ [CameraScreen.RequestObstacleVeryClose]) eq_refl)
      as (Hp' & He & Hq & Hs & Hh).
    split; [exact Hp'|]. split; [|split; [|split]].
    + rewrite He. subst w1. cbn [engine flat_map].
      rewrite <- !app_assoc. reflexivity.
    + rewrite Hq. subst w1. cbn [state st_queue].
      destruct ws; [reflexivity | apply filter_isCritical_idem].
    + intros _. destruct ws as [|t' ws'].
      * reflexivity.
      * apply Hs. discriminate.
    + rewrite Hh, <- app_assoc. reflexivity.
Qed.

(** X17.  When a scene carries warnings and the service is not paused,
    [announceScene] hands every warning to the engine in order, each
    preceded by [Speech.stop()]: every warning but the last is stopped by
    the next one in the same synchronous pass, so only the last is left
    playing.  Nothing else of the scene is announced, whatever the
    verbosity and the objects; the queue keeps only the critical items it
    had; one [obstacleVeryClose] haptic is requested per warning. *)
Theorem announceScene_warnings_interrupt_each_other
        (verbosity : AppStore.Verbosity) (scene : Scene.SceneDescription)
        (first : string) (more : list string) (w : World) :
  Scene.warnings scene = Some (first :: more) ->
  st_isPaused (state w) = false ->
  let r := CameraScreen.announceScene verbosity scene w in
  engine (fst r)
  = engine w ++ flat_map (fun t => [EngineStop; speakCall t w]) (first :: more)
  /\ spokenSince w (fst r) = first :: more
  /\ st_queue (state (fst r)) = filter isCritical (st_queue (state w))
  /\ isSpeaking (fst r) = true
  /\ snd r = repeat CameraScreen.RequestObstacleVeryClose (S (List.length more)).
Proof.
  intros Hw Hp. cbv zeta. unfold CameraScreen.announceScene. rewrite Hw.
  destruct (announceWarnings_running (first :: more) w [] Hp)
    as (_ & He & Hq & Hs & Hh).
  split; [exact He|]. split.
  { rewrite (spokenSince_app w _ _ He). apply spokenTexts_interrupts. }
  split; [exact Hq|]. split; [apply Hs; discriminate|].
  exact Hh.
Qed.

Lemma announceScene_warnings_interrupt_each_other_witness :
  spokenSince freshWorld
    (fst (CameraScreen.announceScene AppStore.balanced
            (Scene.mkScene "A street"%string []
                           None (Some ["Car ahead"%string; "Stairs"%string]) 0)
            freshWorld))
  = ["Car ahead"%string; "Stairs"%string].
Proof.
  apply (announceScene_warnings_interrupt_each_other
           AppStore.balanced
           (Scene.mkScene "A street"%string []
                          None (Some ["Car ahead"%string; "Stairs"%string]) 0)
           "Car ahead"%string ["Stairs"%string] freshWorld);
    reflexivity.
Defined.

Lemma announceWarnings_paused (ws : list string) :
  forall w acc,
    st_isPaused (state w) = true ->
    let r := fold_left CameraScreen.announceWarning ws (w, acc) in
    st_isPaused (state (fst r)) = true
    /\ engine (fst r) = engine w ++ repeat EngineStop (List.length ws)
    /\ map text (st_queue (state (fst r)))
       = rev ws
         ++ map text match ws with
                     | [] => st_queue (state w)
                     | _ => filter isCritical (st_queue (state w))
                     end
    /\ (ws <> [] ->
        Forall (fun item => priority item = critical) (st_queue (state (fst r))))
    /\ st_isSpeaking (state (fst r))
       = match ws with [] => st_isSpeaking (state w) | _ => false end.
Proof.
  induction ws as [|t ws IH]; intros w acc Hp; cbv zeta.
  - cbn. rewrite app_nil_r. repeat split; [exact Hp | congruence].
  - cbn [fold_left].
    change (CameraScreen.announceWarning (w, acc) t)
      with (speakImmediate t w, acc ++ [CameraScreen.RequestObstacleVeryClose]).
    rewrite speakImmediate_paused by exact Hp.
    set (w1 := mkWorld _ _ _ _ _ _ _ _).
    destruct (IH w1 (acc ++ [CameraScreen.RequestObstacleVeryClose]) eq_refl)
      as (Hp' & He & Hq & Hc & Hs).
    split; [exact Hp'|]. split; [|split; [|split]].
    + rewrite He. subst w1. cbn [engine List.length repeat].
      rewrite <- app_assoc. reflexivity.
    + rewrite Hq. subst w1. cbn [state st_queue rev].
      rewrite <- app_assoc. f_equal.
      destruct ws; [reflexivity|].
      cbn [filter isCritical priority Priority_eqb map text app].
      rewrite filter_isCritical_idem. reflexivity.
    + intros _. destruct ws as [|t' ws'].
      * cbn. subst w1. cbn. constructor; [reflexivity|].
        apply filter_isCritical_Forall.
      * apply Hc. discriminate.
    + rewrite Hs. subst w1. destruct ws; reflexivity.
Qed.

(** X18.  When a scene carries warnings and the service is paused,
    [announceScene] queues them in reverse: each [speakImmediate] puts its
    warning in front of the one before, so the texts at the front of the
    queue are the warnings last to first, followed by the critical items
    that were queued.  Nothing is handed to the engine (it is only stopped
    once per warning), and a later [resume] starts with the scene's last
    warning. *)
Theorem announceScene_warnings_queue_in_reverse_when_paused
        (verbosity : AppStore.Verbosity) (scene : Scene.SceneDescription)
        (first : string) (more : list string) (w : World) :
  Scene.warnings scene = Some (first :: more) ->
  st_isPaused (state w) = true ->
  let r := CameraScreen.announceScene verbosity scene w in
  map text (st_queue (state (fst r)))
  = rev (first :: more) ++ map text (filter isCritical (st_queue (state w)))
  /\ Forall (fun item => priority item = critical) (st_queue (state (fst r)))
  /\ spokenSince w (fst r) = []
  /\ isSpeaking (fst r) = false
  /\ spokenSince (fst r) (resume (fst r)) = [last more first].
Proof.
  intros Hw Hp. cbv zeta. unfold CameraScreen.announceScene. rewrite Hw.
  destruct (announceWarnings_paused (first :: more) w [] Hp)
    as (Hp' & He & Hq & Hc & Hs).
  set (w' := fst (fold_left CameraScreen.announceWarning (first :: more) (w, [])))
    in *.
  specialize (Hc ltac:(discriminate)).
  split; [exact Hq|]. split; [exact Hc|]. split; [|split].
  - rewrite (spokenSince_app w w' _ He).
    clear. induction (List.length (first :: more)); [reflexivity | exact IHn].
  - exact Hs.
  - (* the head of the queue carries the last warning and is critical *)
    destruct (st_queue (state w')) as [|x rest] eqn:Eq.
    { exfalso. cbn [map] in Hq. symmetry in Hq.
      apply app_eq_nil in Hq. destruct Hq as [Hq _].
      cbn [rev] in Hq. apply app_eq_nil in Hq. destruct Hq as [_ Hq].
      discriminate Hq. }
    assert (Hx : text x = last more first).
    { assert (Hhd : hd_error (map text (x :: rest))
                    = hd_error (rev (first :: more)
                                ++ map text (filter isCritical (st_queue (state w)))))
        by (rewrite Hq; reflexivity).
      cbn [map hd_error] in Hhd.
      destruct (exists_last (l := first :: more) ltac:(discriminate))
        as (front & z & Hsplit).
      assert (Hz : z = last more first).
      { rewrite <- (last_last front z first).
        rewrite <- Hsplit. destruct more; reflexivity. }
      rewrite Hsplit, rev_app_distr in Hhd. cbn in Hhd.
      injection Hhd as Hhd. congruence. }
    assert (Hxc : priority x = critical) by (inversion Hc; assumption).
    unfold resume, processQueue.
    change (st_queue (state (set_isPaused false w'))) with (st_queue (state w')).
    rewrite Eq.
    rewrite processQueue_on_idle_cons; [| reflexivity | exact Hs].
    cbv zeta. rewrite expiredAtPop_critical by exact Hxc.
    rewrite <- Hx.
    apply (spokenSince_app w' _ [speakCall (text x) w']). reflexivity.
Qed.

Lemma announceScene_warnings_queue_in_reverse_when_paused_witness :
  map text
      (st_queue (state (fst (CameraScreen.announceScene AppStore.detailed
         (Scene.mkScene "A street"%string []
                        None (Some ["Car ahead"%string; "Stairs"%string]) 0)
         (pause freshWorld)))))
  = ["Stairs"%string; "Car ahead"%string].
Proof.
  destruct (announceScene_warnings_queue_in_reverse_when_paused
              AppStore.detailed
              (Scene.mkScene "A street"%string []
                             None (Some ["Car ahead"%string; "Stairs"%string]) 0)
              "Car ahead"%string ["Stairs"%string] (pause freshWorld)
              eq_refl eq_refl) as (Hq & _).
  exact Hq.
Defined.

(** X19.  Every text that Gemini Live sends is taken up by the speech
    service: [onText] submits it as critical when it mentions one of the
    urgency words and as high otherwise, and neither goes through the
    throttle: the outcome does not depend on [lastAnnouncementTime], and
    the item is queued or handed to the engine (for a high item, given
    that the call does not itself outlast the item's timeout).  An [obstacleVeryClose] haptic is
    requested exactly for the urgent texts. *)
Theorem onText_is_never_throttled (txt : string) (w : World) :
  let p := if CameraScreen.isUrgent txt then critical else high in
  let r := CameraScreen.onText txt w in
  (CameraScreen.isUrgent txt = true
   \/ promptCall (newItem txt high w) w (fst r) ->
   accepted (newItem txt p w) w (fst r))
  /\ (forall t,
        fst (CameraScreen.onText txt (set_lastAnnouncementTime t w))
        = set_lastAnnouncementTime t (fst r))
  /\ snd r = (if CameraScreen.isUrgent txt
              then [CameraScreen.RequestObstacleVeryClose] else []).
Proof.
  cbv zeta. unfold CameraScreen.onText. cbn [fst snd].
  destruct (CameraScreen.isUrgent txt); cbn [speak].
  - split; [intros _; apply speakImmediate_accepts|].
    split; [intros t; apply speakImmediate_ignores_last | reflexivity].
  - split.
    + intros [Hu | Hprompt]; [discriminate Hu|]. apply enqueue_accepts, Hprompt.
    + split; [intros t; apply enqueue_ignores_last | reflexivity].
Qed.

Lemma onText_is_never_throttled_witness :
  accepted (newItem "STOP - car approaching"%string critical freshWorld)
           freshWorld
           (fst (CameraScreen.onText "STOP - car approaching"%string freshWorld))
  /\ accepted (newItem "Path clear"%string high freshWorld)
              freshWorld
              (fst (CameraScreen.onText "Path clear"%string freshWorld)).
Proof.
  pose proof (onText_is_never_throttled "STOP - car approaching"%string
                freshWorld) as (Hurgent & _).
  pose proof (onText_is_never_throttled "Path clear"%string freshWorld)
    as (Hcalm & _).
  split.
  - apply Hurgent. left. reflexivity.
  - apply Hcalm. right. intros k Hk. vm_compute. reflexivity.
Defined.

(** ** The sweep *)

(** X20.  After an enqueueing submission ([addToQueue] followed by
    [processQueue], as in [speakHigh], [speakLow] and an unthrottled
    [speakNormal]) every queued item is younger than the timeout of its
    priority as of the sweep's clock reading, and every queued item is
    either the one just submitted or was queued before. *)
Theorem submission_leaves_only_fresh_items
        (txt : string) (p : Priority) (w : World) (item : SpeechQueueItem) :
  In item (st_queue (state (processQueue (addToQueue txt p w)))) ->
  clock w (S (S (ticks w))) - timestamp item < PRIORITY_TIMEOUT (priority item)
  /\ (item = newItem txt p w \/ In item (st_queue (state w))).
Proof.
  intros Hin.
  apply (processQueue_on_incl _ (addToQueue txt p w) eq_refl) in Hin.
  rewrite addToQueue_queue in Hin. apply filter_In in Hin.
  destruct Hin as [Hin Hfresh].
  split.
  - unfold withinTimeout in Hfresh. apply Z.ltb_lt. exact Hfresh.
  - apply (proj1 (sort_In _ _)) in Hin. apply in_app_or in Hin.
    destruct Hin as [Hin | [<- | []]]; [right; exact Hin | left; reflexivity].
Qed.

Lemma submission_leaves_only_fresh_items_witness :
  10000 - 10000 < PRIORITY_TIMEOUT high.
Proof.
  apply (submission_leaves_only_fresh_items
           "Door ahead"%string high (pause freshWorld)
           (newItem "Door ahead"%string high (pause freshWorld))).
  left. reflexivity.
Defined.

(* ================================================================== *)
(** * Settings *)

(** X21.  [setLanguage] and [setSpeechRate] call nothing and change
    nothing but the setting, and the setting is read when an utterance is
    started, not when it is submitted: the next item that [processQueue]
    starts, queued before the change or not, is spoken with the new
    language code and the new rate. *)
Theorem settings_apply_to_next_utterance
        (w : World) (l : Language) (r : RateSetting)
        (x : SpeechQueueItem) (rest : list SpeechQueueItem) :
  idle w ->
  st_queue (state w) = x :: rest ->
  clock w (ticks w) - timestamp x <= PRIORITY_TIMEOUT (priority x) ->
  let w' := setSpeechRate r (setLanguage l w) in
  engine w' = engine w
  /\ st_queue (state w') = st_queue (state w)
  /\ isSpeaking w' = isSpeaking w
  /\ engine (processQueue w')
     = engine w ++ [EngineSpeak (text x) (LANGUAGES l) (RATE r) PITCH]
  /\ st_queue (state (processQueue w')) = rest.
Proof.
  intros [Hp Hs] Hq Hage. cbv zeta.
  split; [reflexivity|]. split; [reflexivity|]. split; [reflexivity|].
  unfold processQueue.
  change (st_queue (state (setSpeechRate r (setLanguage l w))))
    with (st_queue (state w)).
  rewrite Hq.
  rewrite processQueue_speaks_head_up_to_timeout;
    [split; reflexivity | exact Hp | exact Hs | exact Hage].
Qed.

Lemma settings_apply_to_next_utterance_witness :
  engine (processQueue (setSpeechRate rate_fast
            (setLanguage hi (set_isPaused false pausedWithCritical))))
  = engine (set_isPaused false pausedWithCritical)
    ++ [EngineSpeak "Stairs ahead"%string "hi-IN"%string (13 # 10) 1].
Proof.
  destruct (settings_apply_to_next_utterance
              (set_isPaused false pausedWithCritical) hi rate_fast
              (newItem "Stairs ahead"%string critical
                       (set_isSpeaking false (Speech_stop (pause freshWorld))))
              []) as (_ & _ & _ & He & _).
  - split; reflexivity.
  - reflexivity.
  - vm_compute. discriminate.
  - exact He.
Defined.

(* ================================================================== *)
(** * The live session *)

Lemma perform_keeps_session_with_streaming (s : GeminiLive.Session)
      (c : GeminiLive.Call) :
  (GeminiLive.isStreaming s = true <-> GeminiLive.session s <> None) ->
  (GeminiLive.isStreaming (GeminiLive.perform s c) = true
   <-> GeminiLive.session (GeminiLive.perform s c) <> None).
Proof.
  intros H.
  assert (Hdeliver : forall t,
             GeminiLive.isStreaming (GeminiLive.deliver t s)
             = GeminiLive.isStreaming s
             /\ GeminiLive.session (GeminiLive.deliver t s)
                = GeminiLive.session s).
  { intros t. destruct t; split; reflexivity. }
  destruct c as [chat | o | o | o |]; cbn [GeminiLive.perform].
  - unfold GeminiLive.start.
    destruct (GeminiLive.isStreaming s) eqn:E; [rewrite E; exact H|].
    destruct chat; cbn; [|rewrite E; exact H].
    split; [discriminate | reflexivity].
  - unfold GeminiLive.streamFrame.
    destruct (GeminiLive.inactive s); [exact H|].
    destruct o as [|t]; [exact H|].
    destruct (Hdeliver t) as [-> ->]. exact H.
  - unfold GeminiLive.streamAudio.
    destruct (GeminiLive.inactive s); [exact H|].
    destruct o as [|t]; [exact H|].
    destruct (Hdeliver t) as [-> ->]. exact H.
  - unfold GeminiLive.sendText.
    destruct (GeminiLive.inactive s); [exact H|].
    destruct o as [|t]; [exact H|].
    destruct (Hdeliver t) as [-> ->]. exact H.
  - cbn. split; [discriminate | congruence].
Qed.

Lemma perform_inactive_silent (s : GeminiLive.Session) (c : GeminiLive.Call) :
  GeminiLive.isStreaming s = false ->
  GeminiLive.isStart c = false ->
  GeminiLive.isStreaming (GeminiLive.perform s c) = false
  /\ GeminiLive.invoked (GeminiLive.perform s c) = GeminiLive.invoked s.
Proof.
  intros Hs Hc.
  destruct c as [chat | o | o | o |]; cbn [GeminiLive.perform];
    try discriminate Hc.
  - unfold GeminiLive.streamFrame, GeminiLive.inactive. rewrite Hs.
    split; [exact Hs | reflexivity].
  - unfold GeminiLive.streamAudio, GeminiLive.inactive. rewrite Hs.
    split; [exact Hs | reflexivity].
  - unfold GeminiLive.sendText, GeminiLive.inactive. rewrite Hs.
    split; reflexivity || exact Hs.
  - split; reflexivity.
Qed.

(** X22.  For calls that do not overlap, a live session is streaming
    exactly when it holds a chat session, whatever calls were made since
    it was constructed and however the SDK answered; and from [stop] until
    the next [start] the session invokes no callback: frames, audio and
    text sent to it are dropped and [isActive()] stays false. *)
Theorem live_session_is_consistent_and_silent_after_stop
        (before after : list GeminiLive.Call) :
  let s := GeminiLive.performAll before GeminiLive.create in
  (GeminiLive.isActive s = true <-> GeminiLive.session s <> None)
  /\ (forallb (fun c => negb (GeminiLive.isStart c)) after = true ->
      let s' := GeminiLive.performAll after (GeminiLive.stop s) in
      GeminiLive.isActive s' = false
      /\ GeminiLive.invoked s' = GeminiLive.invoked s).
Proof.
  cbv zeta. split.
  - unfold GeminiLive.isActive.
    assert (H : forall calls s0,
               (GeminiLive.isStreaming s0 = true <-> GeminiLive.session s0 <> None) ->
               (GeminiLive.isStreaming (GeminiLive.performAll calls s0) = true
                <-> GeminiLive.session (GeminiLive.performAll calls s0) <> None)).
    { induction calls as [|c calls IH]; intros s0 H0; [exact H0|].
      change (GeminiLive.performAll (c :: calls) s0)
        with (GeminiLive.performAll calls (GeminiLive.perform s0 c)).
      apply IH, perform_keeps_session_with_streaming, H0. }
    apply H. cbn. split; [discriminate | congruence].
  - intros Hafter. unfold GeminiLive.isActive.
    assert (H : forall s0,
               GeminiLive.isStreaming s0 = false ->
               GeminiLive.isStreaming (GeminiLive.performAll after s0) = false
               /\ GeminiLive.invoked (GeminiLive.performAll after s0)
                  = GeminiLive.invoked s0).
    { induction after as [|c calls IH]; intros s0 H0; [split; [exact H0 | reflexivity]|].
      cbn [forallb] in Hafter. apply andb_prop in Hafter.
      destruct Hafter as [Hc Hrest]. apply negb_true_iff in Hc.
      change (GeminiLive.performAll (c :: calls) s0)
        with (GeminiLive.performAll calls (GeminiLive.perform s0 c)).
      destruct (perform_inactive_silent s0 c H0 Hc) as [H1 H2].
      destruct (IH Hrest (GeminiLive.perform s0 c) H1) as [H3 H4].
      split; [exact H3 | congruence]. }
    apply (H (GeminiLive.stop (GeminiLive.performAll before GeminiLive.create))).
    reflexivity.
Qed.

Lemma live_session_is_consistent_and_silent_after_stop_witness :
  GeminiLive.invoked
    (GeminiLive.performAll
       [GeminiLive.CallStreamFrame (GeminiLive.SendReturned "Door ahead"%string);
        GeminiLive.CallSendText GeminiLive.SendThrew]
       (GeminiLive.stop
          (GeminiLive.performAll
             [GeminiLive.CallStart (Some 1%nat);
              GeminiLive.CallStreamFrame (GeminiLive.SendReturned "Path clear"%string)]
             GeminiLive.create)))
  = [GeminiLive.OnText "Path clear"%string].
Proof.
  destruct (live_session_is_consistent_and_silent_after_stop
              [GeminiLive.CallStart (Some 1%nat);
               GeminiLive.CallStreamFrame (GeminiLive.SendReturned "Path clear"%string)]
              [GeminiLive.CallStreamFrame (GeminiLive.SendReturned "Door ahead"%string);
               GeminiLive.CallSendText GeminiLive.SendThrew])
    as (_ & Hsilent).
  destruct (Hsilent eq_refl) as (_ & Hinvoked).
  exact Hinvoked.
Defined.
